(** * pygame-mvc-engine: the event manager and the tick-driven run loop

    A shallow embedding of [src/engine.py] (Python 3) and the properties of
    its event bus ([EventManager]) and of its run loop ([TickController.Run]).

    Conventions of the embedding.
    - An object is a cell of the [heap], addressed by a natural number; a
      cell records how many strong references to the object exist.
    - There is one [EventManager], as in [main]; its [listeners] field is a
      [WeakKeyDictionary].  The dictionary is the insertion-ordered entry
      array of the CPython [dict] behind it: a slot holds a key or is a hole
      left by a deletion.  The value stored with every key is the constant
      [1] and is never read, so a slot holds the key only.  Compaction of
      the array on growth is not modelled.
    - Every function that can raise returns an [Outcome]; the world at the
      point where an exception was raised is kept.  The calls into pygame
      are taken to return: an error of the library itself is not modelled.
      A chain of nested calls of [Post] that is too deep for the model
      ends in [OutOfFuel], where Python raises [RecursionError].
    - Besides the three listener classes of the file there are listeners
      that are described by the calls they make on the event manager:
      registering, unregistering, posting, raising.  Such a listener
      creates no object and drops no reference.
    - The trace of calls ([log]) is ghost state: the code never reads it. *)

From stdpp Require Import gmap list strings.

Set Default Proof Using "Type".

(** * The program

    ** Events (engine.py, lines 13-52) *)

Inductive Event : Set :=
  | GenericEvent       (* class Event *)
  | DrawEvent
  | UpdateEvent
  | QuitEvent
  | QuitCleanupEvent.

#[global] Instance Event_eq_dec : EqDecision Event.
Proof. solve_decision. Defined.

(** [self.name], set by each constructor. *)
Definition name (e : Event) : string :=
  match e with
  | GenericEvent => "Generic Event"
  | DrawEvent => "Draw Event"
  | UpdateEvent => "Update Event"
  | QuitEvent => "Quit Event"
  | QuitCleanupEvent => "Cleanup Event"
  end.

(** ** Objects, the world and the outcome of a call *)

(** What [pygame.event.get()] hands out: only the test [event.type == QUIT]
    is ever made on it. *)
Inductive pygame_event : Set :=
  | QUIT
  | OtherInput (type : nat).

(** The calls a listener can make on the event manager it was given.  A
    listener class that is not one of the three of engine.py is described
    by the calls its [Notify] makes. *)
Inductive Cmd : Set :=
  | CRegister (l : nat)      (* self.evManager.RegisterListener(l) *)
  | CUnregister (l : nat)    (* self.evManager.UnregisterListener(l) *)
  | CPost (e : Event)        (* self.evManager.Post(e) *)
  | CRaise.                  (* raise *)

Inductive Obj : Type :=
  | PygameView
  | PygameController
  | TickController (running : bool)
  (* any other class with a [Notify] method: [seen] counts the calls of
     [Notify] so far, and [script seen event] is the sequence of calls
     that [Notify(event)] makes *)
  | Scripted (seen : nat) (script : nat → Event → list Cmd).

Record Cell : Type := mkCell { strong : nat; obj : Obj }.

Inductive LogItem : Set :=
  | Broadcast (d : nat) (e : Event)            (* Post(e) entered, at nesting depth d *)
  | Notified (d : nat) (l : nat) (e : Event)   (* l.Notify(e), called by the Post at depth d *)
  | Tick (fps : nat)                           (* clock.tick(fps) *)
  | Repaint (l : nat)                          (* drawBackground() of the view l *)
  | PygameQuit (l : nat).                      (* pygame.quit() *)

#[global] Instance LogItem_eq_dec : EqDecision LogItem.
Proof. solve_decision. Defined.

Record World : Type := mkWorld {
  heap : gmap nat Cell;                      (* the live objects *)
  next_id : nat;                             (* allocation counter *)
  listeners : list (option nat);             (* evManager.listeners *)
  pygame_queue : list (list pygame_event);   (* what the next calls of pygame.event.get() return *)
  log : list LogItem
}.

Definition set_heap (h : gmap nat Cell) (w : World) : World :=
  mkWorld h (next_id w) (listeners w) (pygame_queue w) (log w).
Definition set_listeners (ls : list (option nat)) (w : World) : World :=
  mkWorld (heap w) (next_id w) ls (pygame_queue w) (log w).
Definition set_pygame_queue (q : list (list pygame_event)) (w : World) : World :=
  mkWorld (heap w) (next_id w) (listeners w) q (log w).
Definition add_log (i : LogItem) (w : World) : World :=
  mkWorld (heap w) (next_id w) (listeners w) (pygame_queue w) (log w ++ [i]).

Inductive Exception : Set :=
  | RuntimeError   (* dictionary changed size / keys changed during iteration *)
  | Raised.        (* raised by a listener *)

Inductive Outcome : Type :=
  | Ok (w : World)
  | Exn (x : Exception) (w : World)
  | OutOfFuel.

Definition bind (o : Outcome) (k : World → Outcome) : Outcome :=
  match o with
  | Ok w => k w
  | _ => o
  end.

Notation "'let*' w ':=' o 'in' k" := (bind o (fun w => k))
  (at level 10, w name, o at level 100, k at level 200).

(** The world an outcome stopped in. *)
Definition final (o : Outcome) : option World :=
  match o with
  | Ok w | Exn _ w => Some w
  | OutOfFuel => None
  end.

(** ** The WeakKeyDictionary of the event manager *)

(** The keys, in iteration order. *)
Definition keys (w : World) : list nat := omap id (listeners w).

(** [ma_used]: the number of entries. *)
Definition dict_used (w : World) : nat := length (keys w).

(** [del self.data[k]]: the slot of the key becomes a hole. *)
Definition del_key (l : nat) (ls : list (option nat)) : list (option nat) :=
  (fun s => if decide (s = Some l) then None else s) <$> ls.

Definition alive (l : nat) (w : World) : bool := bool_decide (is_Some (heap w !! l)).

(** The keys whose referent is alive: what [keys()] yields. *)
Definition live_keys (w : World) : list nat := filter (fun l => alive l w) (keys w).

(** The first entry at or after slot [i] of the suffix [es] that starts there. *)
Fixpoint scan (i : nat) (es : list (option nat)) : option (nat * nat) :=
  match es with
  | [] => None
  | None :: es' => scan (S i) es'
  | Some l :: _ => Some (i, l)
  end.

Definition next_entry (pos : nat) (ls : list (option nat)) : option (nat * nat) :=
  scan pos (drop pos ls).

(** [for listener in self.listeners.keys(): body], the iterator being at
    slot [pos], created when the dictionary had [used] entries, with [len]
    keys left to hand out.  The dictionary is re-read at every step: the
    iterator walks the live entry array. *)
Fixpoint for_keys (body : nat → World → Outcome)
    (len pos used : nat) (w : World) : Outcome :=
  if decide (used = dict_used w) then
    match next_entry pos (listeners w) with
    | None => Ok w
    | Some (i, l) =>
        match len with
        | 0 => Exn RuntimeError w
        | S len' =>
            if alive l w
            then let* w1 := body l w in for_keys body len' (S i) used w1
            else for_keys body len' (S i) used w
        end
    end
  else Exn RuntimeError w.

(** ** EventManager (engine.py, lines 55-77) *)

Definition EventManager_init (w : World) : World := set_listeners [] w.

Definition RegisterListener (l : nat) (w : World) : World :=
  if decide (Some l ∈ listeners w) then w
  else set_listeners (listeners w ++ [Some l]) w.

Definition UnregisterListener (l : nat) (w : World) : World :=
  if decide (l ∈ live_keys w)
  then set_listeners (del_key l (listeners w)) w
  else w.

(** ** The listeners (engine.py, lines 87-165)

    Of pygame only what reaches the trace is kept: the repainting of the
    view, [pygame.quit()], the ticks of the clock and the input that
    [pygame.event.get()] hands out.  The calls of pygame do not fail. *)

Definition set_obj (l : nat) (o : Obj) (w : World) : World :=
  set_heap (alter (fun c => mkCell (strong c) o) l (heap w)) w.

Definition drawBackground (l : nat) (w : World) : World := add_log (Repaint l) w.

Definition PygameView_Notify (l : nat) (e : Event) (w : World) : Outcome :=
  let w1 := if decide (e = DrawEvent) then drawBackground l w else w in
  Ok (if decide (e = QuitCleanupEvent) then add_log (PygameQuit l) w1 else w1).

(** [for event in pygame.event.get(): ...] over the events handed out. *)
Fixpoint poll (post : Event → World → Outcome)
    (batch : list pygame_event) (w : World) : Outcome :=
  match batch with
  | [] => Ok w
  | ev :: rest =>
      let* w1 := (match ev with
            | QUIT => post QuitEvent w
            | OtherInput _ => Ok w
            end) in
      poll post rest w1
  end.

Definition PygameController_Notify (post : Event → World → Outcome)
    (e : Event) (w : World) : Outcome :=
  if decide (e = UpdateEvent)
  then poll post (hd [] (pygame_queue w)) (set_pygame_queue (tl (pygame_queue w)) w)
  else Ok w.

Definition TickController_Notify (l : nat) (e : Event) (w : World) : Outcome :=
  if decide (e = QuitEvent) then Ok (set_obj l (TickController false) w) else Ok w.

Definition exec (post : Event → World → Outcome) (c : Cmd) (w : World) : Outcome :=
  match c with
  | CRegister l => Ok (RegisterListener l w)
  | CUnregister l => Ok (UnregisterListener l w)
  | CPost e => post e w
  | CRaise => Exn Raised w
  end.

Fixpoint run_script (post : Event → World → Outcome)
    (cs : list Cmd) (w : World) : Outcome :=
  match cs with
  | [] => Ok w
  | c :: cs' => let* w1 := exec post c w in run_script post cs' w1
  end.

(** [listener.Notify(event)]: dispatch on the class of the object. *)
Definition Notify (post : Event → World → Outcome)
    (l : nat) (e : Event) (w : World) : Outcome :=
  match obj <$> heap w !! l with
  | None => Ok w
  | Some PygameView => PygameView_Notify l e w
  | Some PygameController => PygameController_Notify post e w
  | Some (TickController _) => TickController_Notify l e w
  | Some (Scripted n script) =>
      run_script post (script n e) (set_obj l (Scripted (S n) script) w)
  end.

(** The body of the loop of [Post]: the call is written to the trace. *)
Definition deliver (post : Event → World → Outcome)
    (d : nat) (e : Event) (l : nat) (w : World) : Outcome :=
  Notify post l e (add_log (Notified d l e) w).

(** [EventManager.Post].  [d] is the number of activations of [Post] this
    one is nested in; it is only written to the trace.  A listener that
    posts calls the activation below, which has one unit of fuel less. *)
Fixpoint Post (fuel d : nat) (e : Event) (w : World) : Outcome :=
  match fuel with
  | 0 => OutOfFuel
  | S fuel' =>
      let w0 := add_log (Broadcast d e) w in
      for_keys (deliver (Post fuel' (S d)) d e) (dict_used w0) 0 (dict_used w0) w0
  end.

(** ** TickController.Run (engine.py, lines 152-161) *)

Definition running (s : nat) (w : World) : option bool :=
  match obj <$> heap w !! s with
  | Some (TickController b) => Some b
  | _ => None
  end.

Definition clock_tick (fps : nat) (w : World) : World := add_log (Tick fps) w.

(** The body of the [while] loop. *)
Definition Run_body (fuel : nat) (w : World) : Outcome :=
  let* w1 := Post fuel 0 UpdateEvent w in
  let* w2 := Post fuel 0 DrawEvent w1 in
  let* w3 := Post fuel 0 DrawEvent (clock_tick 30 w2) in
  Ok (clock_tick 30 w3).

(** [iters] bounds the number of turns of the loop, [fuel] the nesting of
    [Post] inside each broadcast. *)
Fixpoint Run (iters fuel : nat) (self : nat) (w : World) : Outcome :=
  if default false (running self w) then
    match iters with
    | 0 => OutOfFuel
    | S n => let* w1 := Run_body fuel w in Run n fuel self w1
    end
  else Post fuel 0 QuitCleanupEvent w.

(** ** Construction and reclamation of objects; main (lines 170-177) *)

Definition alloc (o : Obj) (w : World) : nat * World :=
  (next_id w,
   mkWorld (<[next_id w := mkCell 1 o]> (heap w)) (S (next_id w))
           (listeners w) (pygame_queue w) (log w)).

(** The three [__init__] methods: each registers the new object. *)
Definition PygameController_init (w : World) : nat * World :=
  let '(l, w1) := alloc PygameController w in (l, RegisterListener l w1).

Definition TickController_init (w : World) : nat * World :=
  let '(l, w1) := alloc (TickController true) w in (l, RegisterListener l w1).

Definition PygameView_init (w : World) : nat * World :=
  let '(l, w1) := alloc PygameView w in
  (l, drawBackground l (RegisterListener l w1)).

(** A holder takes a strong reference to [l]. *)
Definition incref (l : nat) (w : World) : World :=
  set_heap (alter (fun c => mkCell (S (strong c)) (obj c)) l (heap w)) w.

(** A holder drops its strong reference to [l].  When it was the last one
    the object is reclaimed and the callback of the weak reference deletes
    its entry from the dictionary. *)
Definition decref (l : nat) (w : World) : World :=
  match heap w !! l with
  | None => w
  | Some c =>
      if decide (strong c ≤ 1)
      then set_listeners (del_key l (listeners w)) (set_heap (delete l (heap w)) w)
      else set_heap (<[l := mkCell (pred (strong c)) (obj c)]> (heap w)) w
  end.

(** The world [main] starts from: nothing allocated, the input that pygame
    will deliver. *)
Definition boot (q : list (list pygame_event)) : World :=
  EventManager_init (mkWorld ∅ 0 [] q []).

(** [main], up to the call of [spinner.Run()]. *)
Definition main_setup (q : list (list pygame_event)) : nat * World :=
  let '(pygamec, w1) := PygameController_init (boot q) in
  let '(spinner, w2) := TickController_init w1 in
  let '(pygamev, w3) := PygameView_init w2 in
  (spinner, w3).

Definition main (iters fuel : nat) (q : list (list pygame_event)) : Outcome :=
  let '(spinner, w) := main_setup q in Run iters fuel spinner w.

(** * The notions of the statements

    ** How a broadcast changes the world *)

Definition obj_le (o o' : Obj) : Prop :=
  match o, o' with
  | PygameView, PygameView => True
  | PygameController, PygameController => True
  | TickController b, TickController b' => b = false → b' = false
  | Scripted _ s, Scripted _ s' => s' = s
  | _, _ => False
  end.

Record cell_le (c c' : Cell) : Prop := mk_cell_le {
  cl_strong : strong c' = strong c;
  cl_obj : obj_le (obj c) (obj c')
}.

Definition heap_le (h h' : gmap nat Cell) : Prop :=
  ∀ l, option_Forall2 cell_le (h !! l) (h' !! l).

(** The depth an entry of the trace was written at is at least [d]; the
    clock is only advanced by the loop itself. *)
Definition item_depth_ge (d : nat) (i : LogItem) : Prop :=
  match i with
  | Broadcast d' _ | Notified d' _ _ => d ≤ d'
  | Tick _ => False
  | Repaint _ | PygameQuit _ => True
  end.

(** [w] has become [w'], the calls [tr] having been made in between. *)
Record evolves (tr : list LogItem) (w w' : World) : Prop := mk_evolves {
  ev_heap : heap_le (heap w) (heap w');
  ev_next : next_id w' = next_id w;
  ev_log : log w' = log w ++ tr;
  ev_alive : ∀ d l e, Notified d l e ∈ tr → is_Some (heap w !! l);
  ev_flag : ∀ s, running s w = Some true → running s w' = Some false →
            ∃ d, Notified d s QuitEvent ∈ tr;
  ev_quit : ∀ d s, Notified d s QuitEvent ∈ tr → running s w' ≠ Some true
}.

(** What is known of any function a listener may call to post. *)
Definition post_spec (d : nat) (post : Event → World → Outcome) : Prop :=
  ∀ e w w', final (post e w) = Some w' →
    ∃ tr, evolves tr w w' ∧ Forall (item_depth_ge d) tr.

(** An entry written during [Post(e)] at depth [d]: a call of [Notify(e)]
    made by this activation, or something written further down. *)
Definition post_item (d : nat) (e : Event) (i : LogItem) : Prop :=
  (∃ l, i = Notified d l e) ∨ item_depth_ge (S d) i.

(** ** Listeners that leave the registry alone *)

(** A call is harmless for the registry [ls] while [e] is being handled:
    registering a listener that is registered, unregistering one that is
    not, and posting a [QuitEvent] from the handling of another event. *)
Definition tame_cmd (ls : list (option nat)) (e : Event) (c : Cmd) : Prop :=
  match c with
  | CRegister l => Some l ∈ ls
  | CUnregister l => Some l ∉ ls
  | CPost e' => e' = QuitEvent ∧ e ≠ QuitEvent
  | CRaise => False
  end.

Definition tame_obj (ls : list (option nat)) (o : Obj) : Prop :=
  match o with
  | Scripted _ script => ∀ n e c, c ∈ script n e → tame_cmd ls e c
  | _ => True
  end.

(** Every registered listener is of a class of engine.py or makes harmless
    calls only. *)
Definition tame (w : World) : Prop :=
  ∀ l c, Some l ∈ listeners w → heap w !! l = Some c → tame_obj (listeners w) (obj c).

(** The dictionary holds a key once. *)
Definition wf (w : World) : Prop := NoDup (keys w).

(** No registered tick controller is running. *)
Definition stopped (w : World) : Prop :=
  ∀ s, Some s ∈ listeners w → running s w ≠ Some true.

Definition is_broadcast (i : LogItem) : Prop :=
  match i with Broadcast _ _ => True | _ => False end.

(** Written by a view. *)
Definition silent (i : LogItem) : Prop :=
  match i with Repaint _ | PygameQuit _ => True | _ => False end.

(** A [QuitEvent] has been broadcast at depth [S d] and has reached every
    listener. *)
Definition quit_done (d : nat) (tr : list LogItem) (w w' : World) : Prop :=
  stopped w' ∧ ∀ l, l ∈ live_keys w → Notified (S d) l QuitEvent ∈ tr.

Record calm (d : nat) (tr : list LogItem) (w w' : World) : Prop := mk_calm {
  cm_evolves : evolves tr w w';
  cm_listeners : listeners w' = listeners w;
  cm_registered : ∀ d' l e, Notified d' l e ∈ tr → Some l ∈ listeners w;
  cm_quit : Forall (λ i, ¬ is_broadcast i) tr ∨ quit_done d tr w w'
}.

(** The calls of [Notify] made by the broadcast at depth [d], in order. *)
Definition direct (d : nat) (tr : list LogItem) : list (nat * Event) :=
  omap (λ i, match i with
             | Notified d' l e => if decide (d' = d) then Some (l, e) else None
             | _ => None
             end) tr.

(** How often [l.Notify(e)] was called by the broadcast at depth [d]. *)
Definition times_notified (d l : nat) (e : Event) (tr : list LogItem) : nat :=
  length (filter (λ i, i = Notified d l e) tr).

Record broadcast_ok (d : nat) (e : Event) (tr : list LogItem) (w w' : World) : Prop :=
  mk_broadcast_ok {
    bo_evolves : evolves (Broadcast d e :: tr) w w';
    bo_listeners : listeners w' = listeners w;
    bo_registered : ∀ d' l e', Notified d' l e' ∈ tr → Some l ∈ listeners w;
    bo_items : Forall (post_item d e) tr;
    bo_direct : direct d tr = (λ l, (l, e)) <$> live_keys w;
    bo_nested : Forall (λ i, ¬ is_broadcast i) tr ∨ quit_done d tr w w';
    bo_quit : e = QuitEvent → stopped w'
  }.

(** ** What the loop itself does *)

(** An entry written by the loop: one of its broadcasts, or a clock tick. *)
Definition is_own (i : LogItem) : bool :=
  match i with
  | Broadcast 0 _ | Tick _ => true
  | _ => false
  end.

Definition own (tr : list LogItem) : list LogItem := filter (λ i, is_own i) tr.

(** One turn of the loop, as the loop sees it. *)
Definition turn : list LogItem :=
  [Broadcast 0 UpdateEvent; Broadcast 0 DrawEvent; Tick 30;
   Broadcast 0 DrawEvent; Tick 30].

Definition turns (n : nat) : list LogItem := mjoin (replicate n turn).

(** The events that the broadcasts of the loop itself passed to [r]. *)
Definition observed (r : nat) (tr : list LogItem) : list Event :=
  omap (λ p : nat * Event, if decide (p.1 = r) then Some p.2 else None) (direct 0 tr).

(** ** Worlds to run the program in *)

(** A recording listener: its [Notify] calls nothing. *)
Definition recorder : Obj := Scripted 0 (λ _ _, []).

(** The world of [main] with one more listener, a recorder, registered. *)
Definition demo (q : list (list pygame_event)) : World :=
  let '(r, w) := alloc recorder (snd (main_setup q)) in RegisterListener r w.

(** The world of [main] with a recorder that exists but is not registered. *)
Definition lobby (q : list (list pygame_event)) : World :=
  snd (alloc recorder (snd (main_setup q))).

(** A listener that registers the object 2 whenever it is notified. *)
Definition eager : Obj := Scripted 0 (λ _ _, [CRegister 2]).

(** A listener that unregisters the object 1 and registers the object 2
    whenever it is notified. *)
Definition swapper : Obj := Scripted 0 (λ _ _, [CUnregister 1; CRegister 2]).

(** A listener that registers itself again and unregisters the object 2,
    which is not registered, whenever it is notified. *)
Definition fussy : Obj := Scripted 0 (λ _ _, [CRegister 0; CUnregister 2]).

(** The object [first] and a recorder are registered, in this order; a
    second recorder exists and is not registered. *)
Definition crowd (first : Obj) : World :=
  let '(a, w1) := alloc first (boot []) in
  let '(b, w2) := alloc recorder (RegisterListener a w1) in
  snd (alloc recorder (RegisterListener b w2)).

(** Five turns: the fifth poll of pygame finds the window closed. *)
Definition five_turns : list (list pygame_event) := [[]; [OtherInput 2]; []; []; [QUIT]].

(** No event of the batch is the closing of the window. *)
Definition noquit (batch : list pygame_event) : bool :=
  forallb (λ ev, match ev with QUIT => false | OtherInput _ => true end) batch.

(** The worlds that [main] goes through: its three listeners, the flag of
    the tick controller, the input still to come and the trace so far. *)
Definition studio (b : bool) (q : list (list pygame_event)) (lg : list LogItem) : World :=
  mkWorld (heap (set_obj 1 (TickController b) (snd (main_setup [])))) 3
          [Some 0; Some 1; Some 2] q lg.

(** ** The trace of [main], written out

    The listeners of [main] are the controller 0, the tick controller 1 and
    the view 2, registered in this order. *)

(** A broadcast that reaches the three listeners. *)
Definition broadcast_trace (d : nat) (e : Event) : list LogItem :=
  [Broadcast d e; Notified d 0 e; Notified d 1 e; Notified d 2 e].

(** What the controller does with a batch of input: a broadcast of
    [QuitEvent], one level down, for every [QUIT] of the batch. *)
Definition poll_trace (batch : list pygame_event) : list LogItem :=
  flat_map (λ ev, match ev with
                  | QUIT => broadcast_trace 1 QuitEvent
                  | OtherInput _ => []
                  end) batch.

Definition update_trace (batch : list pygame_event) : list LogItem :=
  [Broadcast 0 UpdateEvent; Notified 0 0 UpdateEvent] ++ poll_trace batch ++
  [Notified 0 1 UpdateEvent; Notified 0 2 UpdateEvent].

Definition draw_trace : list LogItem := broadcast_trace 0 DrawEvent ++ [Repaint 2].

Definition turn_trace (batch : list pygame_event) : list LogItem :=
  update_trace batch ++ draw_trace ++ [Tick 30] ++ draw_trace ++ [Tick 30].

Definition cleanup_trace : list LogItem :=
  broadcast_trace 0 QuitCleanupEvent ++ [PygameQuit 2].

(** The trace of [main] when the loop has turned once for each of the
    batches: the construction of the view, the turns, the cleanup. *)
Definition main_trace (batches : list (list pygame_event)) : list LogItem :=
  [Repaint 2] ++ flat_map turn_trace batches ++ cleanup_trace.

(** ** The controller, the registry and the loop, in other words *)

#[global] Instance pygame_event_eq_dec : EqDecision pygame_event.
Proof. solve_decision. Defined.

(** How many events of the batch are the closing of the window. *)
Definition count_QUIT (batch : list pygame_event) : nat :=
  length (filter (λ ev, ev = QUIT) batch).

(** [n] calls of [Post(QuitEvent())], one after the other. *)
Fixpoint post_quits (n : nat) (post : Event → World → Outcome) (w : World) : Outcome :=
  match n with
  | 0 => Ok w
  | S n' => let* w1 := post QuitEvent w in post_quits n' post w1
  end.

(** What the loop has done of a turn when one of its three broadcasts
    raised. *)
Definition cut_turns : list (list LogItem) :=
  [[Broadcast 0 UpdateEvent];
   [Broadcast 0 UpdateEvent; Broadcast 0 DrawEvent];
   [Broadcast 0 UpdateEvent; Broadcast 0 DrawEvent; Tick 30; Broadcast 0 DrawEvent]].

(** A listener that raises when it is asked to draw. *)
Definition grumpy : Obj :=
  Scripted 0 (λ _ e, if decide (e = DrawEvent) then [CRaise] else []).

(** The world of [main] with one more listener, which is [o]. *)
Definition guest (o : Obj) (q : list (list pygame_event)) : World :=
  let '(r, w) := alloc o (snd (main_setup q)) in RegisterListener r w.

(** ** The turns of the loop, and a handler that posts *)

(** [n] turns of the loop, one after the other, whatever the flag says. *)
Fixpoint Run_turns (n fuel : nat) (w : World) : Outcome :=
  match n with
  | 0 => Ok w
  | S n' => let* w1 := Run_body fuel w in Run_turns n' fuel w1
  end.

(** The flag of the tick controller [s] is true whenever the loop tests it
    before one of the first [n] turns, the [n] turns return, and the flag is
    not true when the loop tests it after them. *)
Definition turns_until (n fuel s : nat) (w : World) : Prop :=
  (∀ i wi, i < n → Run_turns i fuel w = Ok wi → running s wi = Some true) ∧
  (∃ wn, Run_turns n fuel w = Ok wn ∧ running s wn ≠ Some true).

(** The handler of [p] calls [Post(QuitEvent())] when it is notified of the
    next update: [p] is a listener whose calls on an update always include
    it, or [p] is a controller, the next batch of pygame has a [QUIT], and
    no other live listener is notified before [p]. *)
Definition posts_quit (p : nat) (w : World) : Prop :=
  match obj <$> heap w !! p with
  | Some (Scripted _ script) => ∀ n, CPost QuitEvent ∈ script n UpdateEvent
  | Some PygameController =>
      QUIT ∈ hd [] (pygame_queue w) ∧ head (live_keys w) = Some p
  | _ => False
  end.

(** * Proofs *)

(** ** Objects keep their class; a stopped loop stays stopped *)

Lemma obj_le_refl o : obj_le o o.
Proof. destruct o; simpl; done. Qed.

Lemma obj_le_trans o1 o2 o3 : obj_le o1 o2 → obj_le o2 o3 → obj_le o1 o3.
Proof. destruct o1, o2, o3; simpl; try done; [tauto | congruence]. Qed.

Lemma heap_le_refl h : heap_le h h.
Proof.
  intros l. destruct (h !! l) as [c|]; constructor.
  split; [done | apply obj_le_refl].
Qed.

Lemma heap_le_trans h1 h2 h3 : heap_le h1 h2 → heap_le h2 h3 → heap_le h1 h3.
Proof.
  intros H12 H23 l. specialize (H12 l). specialize (H23 l).
  destruct H12 as [c1 c2 [Hs Ho]|]; inversion H23 as [c2' c3 [Hs' Ho']|]; subst;
    constructor.
  split; [congruence | by eapply obj_le_trans].
Qed.

Lemma heap_le_alive h h' l : heap_le h h' → is_Some (h !! l) ↔ is_Some (h' !! l).
Proof.
  intros H. specialize (H l).
  destruct H; split; intros [? ?]; try done; by eexists.
Qed.

Lemma heap_le_lookup h h' l c :
  heap_le h h' → h !! l = Some c →
  ∃ c', h' !! l = Some c' ∧ strong c' = strong c ∧ obj_le (obj c) (obj c').
Proof.
  intros H Hl. specialize (H l). rewrite Hl in H.
  inversion H as [? c' [? ?]|]; subst. by exists c'.
Qed.

Lemma heap_le_lookup_rev h h' l c' :
  heap_le h h' → h' !! l = Some c' →
  ∃ c, h !! l = Some c ∧ strong c' = strong c ∧ obj_le (obj c) (obj c').
Proof.
  intros H Hl. specialize (H l). rewrite Hl in H.
  inversion H as [c ? [? ?]|]; subst. by exists c.
Qed.

Lemma running_Some s w b :
  running s w = Some b ↔ ∃ n, heap w !! s = Some (mkCell n (TickController b)).
Proof.
  unfold running. split.
  - destruct (heap w !! s) as [[n o]|]; simpl; [|done].
    destruct o; try done. intros [= ->]. by exists n.
  - intros [n ->]. done.
Qed.

Lemma heap_le_running w w' s :
  heap_le (heap w) (heap w') → running s w = Some false → running s w' = Some false.
Proof.
  intros H [n Hn]%running_Some.
  destruct (heap_le_lookup _ _ _ _ H Hn) as ([n' o'] & Hl & _ & Ho).
  simpl in Ho. destruct o'; try done.
  apply running_Some. exists n'. by rewrite Hl, Ho.
Qed.

Lemma heap_le_running_some w w' s b :
  heap_le (heap w) (heap w') → running s w = Some b → ∃ b', running s w' = Some b'.
Proof.
  intros H [n Hn]%running_Some.
  destruct (heap_le_lookup _ _ _ _ H Hn) as ([n' o'] & Hl & _ & Ho).
  simpl in Ho. destruct o' as [| |b'|]; try done.
  exists b'. apply running_Some. by exists n'.
Qed.

Lemma running_le w w' s b' :
  heap_le (heap w) (heap w') → running s w' = Some b' →
  ∃ b, running s w = Some b ∧ (b = false → b' = false).
Proof.
  intros H [n Hn]%running_Some.
  destruct (heap_le_lookup_rev _ _ _ _ H Hn) as ([k o] & Hl & _ & Ho).
  simpl in Ho. destruct o as [| |b|]; try done.
  exists b. split; [|done]. apply running_Some. by exists k.
Qed.

Lemma not_running_stable w w' s :
  heap_le (heap w) (heap w') → running s w ≠ Some true → running s w' ≠ Some true.
Proof.
  intros H Hn Ht. destruct (running_le _ _ _ _ H Ht) as (b & Hb & Hi).
  destruct b; [done|]. by specialize (Hi eq_refl).
Qed.

Lemma evolves_refl w : evolves [] w w.
Proof.
  split; [apply heap_le_refl | done | by rewrite app_nil_r | | |].
  - intros d l e H. by apply elem_of_nil in H.
  - intros s H1 H2. congruence.
  - intros d s H. by apply elem_of_nil in H.
Qed.

Lemma evolves_trans tr1 tr2 w1 w2 w3 :
  evolves tr1 w1 w2 → evolves tr2 w2 w3 → evolves (tr1 ++ tr2) w1 w3.
Proof.
  intros [Hh1 Hn1 Hl1 Ha1 Hf1 Hq1] [Hh2 Hn2 Hl2 Ha2 Hf2 Hq2]. split.
  - by eapply heap_le_trans.
  - congruence.
  - by rewrite Hl2, Hl1, app_assoc.
  - intros d l e [H|H]%elem_of_app; [by eauto|].
    eapply heap_le_alive; [exact Hh1|]. by eauto.
  - intros s Ht Hf.
    destruct (heap_le_running_some _ _ _ _ Hh1 Ht) as [[|] Hb].
    + destruct (Hf2 s Hb Hf) as [d Hd]. exists d. apply elem_of_app. by right.
    + destruct (Hf1 s Ht Hb) as [d Hd]. exists d. apply elem_of_app. by left.
  - intros d s [H|H]%elem_of_app; [|by eauto].
    eapply not_running_stable; [exact Hh2|]. by eauto.
Qed.

(** Steps that leave the heap alone. *)
Lemma evolves_same_heap tr w w' :
  heap w' = heap w → next_id w' = next_id w → log w' = log w ++ tr →
  (∀ d l e, Notified d l e ∈ tr →
     is_Some (heap w !! l) ∧ (e = QuitEvent → running l w ≠ Some true)) →
  evolves tr w w'.
Proof.
  intros Hh Hn Hl Ha. split; try done.
  - rewrite Hh. apply heap_le_refl.
  - intros d l e H. by apply Ha in H as [? _].
  - intros s H1 H2. unfold running in *. rewrite Hh in H2. congruence.
  - intros d s H. apply Ha in H as [_ H]. unfold running in *. rewrite Hh. by apply H.
Qed.

Lemma evolves_silent w w' :
  heap w' = heap w → next_id w' = next_id w → log w' = log w → evolves [] w w'.
Proof.
  intros Hh Hn Hl. apply evolves_same_heap; try done.
  - by rewrite app_nil_r.
  - intros d l e H. by apply elem_of_nil in H.
Qed.

Lemma evolves_RegisterListener l w : evolves [] w (RegisterListener l w).
Proof. unfold RegisterListener. case_decide; by apply evolves_silent. Qed.

Lemma evolves_UnregisterListener l w : evolves [] w (UnregisterListener l w).
Proof. unfold UnregisterListener. case_decide; by apply evolves_silent. Qed.

Lemma heap_le_set_obj l o w c :
  heap w !! l = Some c → obj_le (obj c) o →
  heap_le (heap w) (heap (set_obj l o w)).
Proof.
  intros Hl Ho l'. simpl. rewrite lookup_alter. case_decide as Hd.
  - subst l'. rewrite Hl. simpl. constructor. by split.
  - destruct (heap w !! l') as [c'|]; constructor.
    split; [done | apply obj_le_refl].
Qed.

Lemma running_set_obj_ne l o w s : s ≠ l → running s (set_obj l o w) = running s w.
Proof. intros Hs. unfold running. simpl. by rewrite lookup_alter_ne. Qed.

(** A listener that is not a tick controller has been notified. *)
Lemma evolves_bump l n script w c :
  heap w !! l = Some c → obj c = Scripted n script →
  evolves [] w (set_obj l (Scripted (S n) script) w).
Proof.
  intros Hl Ho. split; try done.
  - eapply heap_le_set_obj; [done|]. by rewrite Ho.
  - by rewrite app_nil_r.
  - intros d' l' e' H. by apply elem_of_nil in H.
  - intros s Ht Hf. destruct (decide (s = l)) as [->|Hne].
    + apply running_Some in Ht as [k Hk]. rewrite Hl in Hk.
      injection Hk as ->. done.
    + rewrite running_set_obj_ne in Hf by done. congruence.
  - intros d' s H. by apply elem_of_nil in H.
Qed.

(** ** Any broadcast, whatever the listeners do *)

Lemma final_bind o k w' :
  final (bind o k) = Some w' →
  (∃ w1, o = Ok w1 ∧ final (k w1) = Some w') ∨ (∃ x, o = Exn x w').
Proof.
  destruct o as [w1|x w1|]; simpl; [by eauto | | done].
  intros [= ->]. by eauto.
Qed.

Lemma item_depth_ge_le d d' i : d ≤ d' → item_depth_ge d' i → item_depth_ge d i.
Proof. destruct i; simpl; lia. Qed.

Lemma post_item_depth_ge d e i : post_item d e i → item_depth_ge d i.
Proof.
  intros [[l ->]|H]; simpl; [done|].
  eapply item_depth_ge_le; [|exact H]. lia.
Qed.

Section Handlers.
Context (post : Event → World → Outcome) (d : nat).
Hypothesis Hpost : post_spec (S d) post.

Lemma poll_evolves batch w w' :
  final (poll post batch w) = Some w' →
  ∃ tr, evolves tr w w' ∧ Forall (item_depth_ge (S d)) tr.
Proof using Hpost.
  revert w. induction batch as [|ev rest IH]; intros w; simpl.
  - intros [= <-]. exists []. split; [apply evolves_refl | constructor].
  - intros [(w1 & H1 & H2)|(x & H1)]%final_bind.
    + assert (∃ tr1, evolves tr1 w w1 ∧ Forall (item_depth_ge (S d)) tr1)
        as (tr1 & E1 & F1).
      { destruct ev.
        - apply (Hpost QuitEvent). by rewrite H1.
        - injection H1 as <-. exists []. split; [apply evolves_refl | constructor]. }
      destruct (IH _ H2) as (tr2 & E2 & F2). exists (tr1 ++ tr2).
      split; [by eapply evolves_trans | by apply Forall_app].
    + destruct ev; [|discriminate]. apply (Hpost QuitEvent). by rewrite H1.
Qed.

Lemma exec_evolves c w w' :
  final (exec post c w) = Some w' →
  ∃ tr, evolves tr w w' ∧ Forall (item_depth_ge (S d)) tr.
Proof using Hpost.
  destruct c as [l|l|e|]; simpl.
  - intros [= <-]. exists []. split; [apply evolves_RegisterListener | constructor].
  - intros [= <-]. exists []. split; [apply evolves_UnregisterListener | constructor].
  - apply Hpost.
  - intros [= <-]. exists []. split; [apply evolves_refl | constructor].
Qed.

Lemma run_script_evolves cs w w' :
  final (run_script post cs w) = Some w' →
  ∃ tr, evolves tr w w' ∧ Forall (item_depth_ge (S d)) tr.
Proof using Hpost.
  revert w. induction cs as [|c cs IH]; intros w; simpl.
  - intros [= <-]. exists []. split; [apply evolves_refl | constructor].
  - intros [(w1 & H1 & H2)|(x & H1)]%final_bind.
    + destruct (exec_evolves c w w1) as (tr1 & E1 & F1); [by rewrite H1|].
      destruct (IH _ H2) as (tr2 & E2 & F2). exists (tr1 ++ tr2).
      split; [by eapply evolves_trans | by apply Forall_app].
    + apply exec_evolves with c. by rewrite H1.
Qed.

Lemma evolves_notified e l w :
  is_Some (heap w !! l) → running l w = None →
  evolves [Notified d l e] w (add_log (Notified d l e) w).
Proof.
  intros Hl Hr. apply evolves_same_heap; try done.
  intros d' l' e' [= _ -> _]%list_elem_of_singleton. split; [done|].
  by rewrite Hr.
Qed.

Lemma PygameView_Notify_evolves e l w w' :
  final (PygameView_Notify l e w) = Some w' →
  ∃ tr, evolves tr w w' ∧ Forall (item_depth_ge (S d)) tr.
Proof.
  unfold PygameView_Notify, drawBackground. simpl. intros [= <-].
  exists ((if decide (e = DrawEvent) then [Repaint l] else []) ++
          (if decide (e = QuitCleanupEvent) then [PygameQuit l] else [])).
  split.
  - apply evolves_same_heap.
    + by repeat case_decide.
    + by repeat case_decide.
    + repeat case_decide; simpl; by rewrite ?app_nil_r, <- ?app_assoc.
    + intros d' l' e' H. exfalso. repeat case_decide; simpl in H;
        repeat (apply elem_of_cons in H as [H|H]; [done|]);
        by apply elem_of_nil in H.
  - repeat case_decide; simpl; by repeat constructor.
Qed.

Lemma TickController_Notify_evolves e l w w0 w' b n :
  heap w !! l = Some (mkCell n (TickController b)) →
  w0 = add_log (Notified d l e) w →
  final (TickController_Notify l e w0) = Some w' →
  evolves [Notified d l e] w w'.
Proof.
  intros Hl -> H. unfold TickController_Notify in H. case_decide as He.
  - subst e. injection H as <-. split; try done.
    + eapply (heap_le_set_obj l _ (add_log _ w)); [exact Hl | done].
    + intros d' l' e' [= _ -> _]%list_elem_of_singleton. by eexists.
    + intros s Ht Hf. destruct (decide (s = l)) as [->|Hne].
      * exists d. by apply list_elem_of_singleton.
      * rewrite running_set_obj_ne in Hf by done.
        unfold running in *. simpl in Hf. congruence.
    + intros d' s [= _ -> ]%list_elem_of_singleton.
      unfold running. simpl. by rewrite lookup_alter_eq, Hl.
  - injection H as <-. apply evolves_same_heap; try done.
    intros d' l' e' [= _ -> ->]%list_elem_of_singleton. split; [by eexists | done].
Qed.

Lemma deliver_evolves e l w w' :
  is_Some (heap w !! l) →
  final (deliver post d e l w) = Some w' →
  ∃ tr, evolves (Notified d l e :: tr) w w' ∧ Forall (item_depth_ge (S d)) tr.
Proof using Hpost.
  intros Hal. pose proof (evolves_notified e l w Hal) as E0.
  unfold deliver, Notify.
  destruct Hal as [[n o] Hl].
  change (heap (add_log (Notified d l e) w)) with (heap w). rewrite Hl. simpl.
  assert (Hr : (∀ b, o ≠ TickController b) → running l w = None).
  { intros Ho. unfold running. rewrite Hl. simpl. destruct o as [| |b0|]; try done.
    by specialize (Ho b0). }
  destruct o as [| |b|k script];
    [specialize (E0 (Hr ltac:(done))) | specialize (E0 (Hr ltac:(done))) | clear E0 |
     specialize (E0 (Hr ltac:(done)))].
  - intros (tr & E & F)%PygameView_Notify_evolves.
    exists tr. split; [|done]. by apply (evolves_trans [_] tr _ _ _ E0).
  - unfold PygameController_Notify. case_decide.
    + intros (tr & E & F)%poll_evolves. exists tr. split; [|done].
      apply (evolves_trans [_] tr _ _ _ E0).
      eapply (evolves_trans [] tr); [|exact E]. by apply evolves_silent.
    + intros [= <-]. exists []. by split; [|constructor].
  - intros H. exists []. split; [|constructor].
    by eapply TickController_Notify_evolves.
  - intros (tr & E & F)%run_script_evolves. exists tr. split; [|done].
    apply (evolves_trans [_] tr _ _ _ E0).
    eapply (evolves_trans [] tr); [|exact E].
    by eapply (evolves_bump l k script (add_log _ w)).
Qed.

Lemma for_keys_evolves e len pos used w w' :
  final (for_keys (deliver post d e) len pos used w) = Some w' →
  ∃ tr, evolves tr w w' ∧ Forall (post_item d e) tr.
Proof using Hpost.
  assert (Hstop : ∀ w0 : World,
    ∃ tr, evolves tr w0 w0 ∧ Forall (post_item d e) tr).
  { intros w0. exists []. split; [apply evolves_refl | constructor]. }
  revert pos w. induction len as [|len IH]; intros pos w; simpl.
  - case_decide; [|by intros [= <-]].
    destruct (next_entry pos (listeners w)) as [[i l]|]; by intros [= <-].
  - case_decide; [|by intros [= <-]].
    destruct (next_entry pos (listeners w)) as [[i l]|]; [|by intros [= <-]].
    destruct (alive l w) eqn:Hal; [|by apply IH].
    apply bool_decide_eq_true in Hal.
    intros [(w1 & H1 & H2)|(x & H1)]%final_bind.
    + destruct (deliver_evolves e l w w1 Hal) as (tr1 & E1 & F1); [by rewrite H1|].
      destruct (IH _ _ H2) as (tr2 & E2 & F2).
      exists ((Notified d l e :: tr1) ++ tr2). split; [by eapply evolves_trans|].
      apply Forall_app. split; [|done]. constructor; [left; by eexists|].
      eapply Forall_impl; [exact F1|]. intros i'. by right.
    + destruct (deliver_evolves e l w w' Hal) as (tr1 & E1 & F1); [by rewrite H1|].
      exists (Notified d l e :: tr1). split; [done|].
      constructor; [left; by eexists|].
      eapply Forall_impl; [exact F1|]. intros i'. by right.
Qed.
End Handlers.

(** A broadcast writes its own entry first; everything else it writes is a
    call of [Notify] it makes or belongs to a nested broadcast. *)
Lemma Post_evolves fuel d e w w' :
  final (Post fuel d e w) = Some w' →
  ∃ tr, evolves (Broadcast d e :: tr) w w' ∧ Forall (post_item d e) tr.
Proof.
  revert d e w w'. induction fuel as [|fuel IH]; intros d e w w'; simpl; [done|].
  intros H. apply for_keys_evolves in H as (tr & E & F).
  - exists tr. split; [|done].
    apply (evolves_trans [_] tr w (add_log (Broadcast d e) w)); [|done].
    apply evolves_same_heap; try done.
    intros d' l' e' [=]%list_elem_of_singleton.
  - intros e1 w1 w1' H1. destruct (IH _ _ _ _ H1) as (tr1 & E1 & F1).
    exists (Broadcast (S d) e1 :: tr1). split; [done|].
    constructor; [simpl; lia|].
    eapply Forall_impl; [exact F1|]. apply post_item_depth_ge.
Qed.

Lemma Post_post_spec fuel d : post_spec d (Post fuel d).
Proof.
  intros e w w' H. destruct (Post_evolves _ _ _ _ _ H) as (tr & E & F).
  exists (Broadcast d e :: tr). split; [done|].
  constructor; [simpl; lia|].
  eapply Forall_impl; [exact F|]. apply post_item_depth_ge.
Qed.

(** ** Broadcasts among tame listeners *)

Lemma live_keys_stable w w' :
  listeners w' = listeners w → heap_le (heap w) (heap w') →
  live_keys w' = live_keys w.
Proof.
  intros Hl Hh. unfold live_keys, keys. rewrite Hl. apply list_filter_iff.
  intros l. unfold alive. rewrite !bool_decide_spec. symmetry. by apply heap_le_alive.
Qed.

Lemma tame_stable w w' :
  listeners w' = listeners w → heap_le (heap w) (heap w') → tame w → tame w'.
Proof.
  intros Hl Hh Ht l c' Hin Hc'. rewrite Hl in *.
  destruct (heap_le_lookup_rev _ _ _ _ Hh Hc') as (c & Hc & _ & Ho).
  specialize (Ht l c Hin Hc).
  destruct (obj c), (obj c'); simpl in *; try done. by subst.
Qed.

Lemma stopped_stable w w' :
  listeners w' = listeners w → heap_le (heap w) (heap w') → stopped w → stopped w'.
Proof.
  intros Hl Hh Hs s Hin. rewrite Hl in Hin.
  eapply not_running_stable; [done|]. by apply Hs.
Qed.

Lemma calm_refl d w : calm d [] w w.
Proof.
  split; [apply evolves_refl | done | | left; constructor].
  intros d' l e H. by apply elem_of_nil in H.
Qed.

Lemma calm_trans d tr1 tr2 w1 w2 w3 :
  calm d tr1 w1 w2 → calm d tr2 w2 w3 → calm d (tr1 ++ tr2) w1 w3.
Proof.
  intros [E1 L1 R1 Q1] [E2 L2 R2 Q2]. split.
  - by eapply evolves_trans.
  - congruence.
  - intros d' l e [H|H]%elem_of_app; [by eauto|]. rewrite <- L1. by eauto.
  - destruct Q2 as [N2|[S2 D2]].
    + destruct Q1 as [N1|[S1 D1]].
      * left. by apply Forall_app.
      * right. split.
        -- eapply stopped_stable; [done | apply E2 | done].
        -- intros l Hl. apply elem_of_app. left. by apply D1.
    + right. split; [done|]. intros l Hl. apply elem_of_app. right.
      apply D2. erewrite live_keys_stable; [done | done | apply E1].
Qed.

Lemma calm_tame d tr w w' : calm d tr w w' → tame w → tame w'.
Proof. intros [E L _ _]. apply tame_stable; [done | apply E]. Qed.

Lemma calm_silent d w w' :
  heap w' = heap w → next_id w' = next_id w → log w' = log w →
  listeners w' = listeners w → calm d [] w w'.
Proof.
  intros Hh Hn Hl Hls. split; [by apply evolves_silent | done | | left; constructor].
  intros d' l e H. by apply elem_of_nil in H.
Qed.

Lemma silent_depth_ge d i : silent i → item_depth_ge d i.
Proof. destruct i; simpl; tauto. Qed.

Lemma silent_not_broadcast i : silent i → ¬ is_broadcast i.
Proof. destruct i; simpl; tauto. Qed.

Lemma scan_spec es i :
  match scan i es with
  | None => omap id es = []
  | Some (j, l) => ∃ k, j = i + k ∧ es !! k = Some (Some l) ∧
                        omap id es = l :: omap id (drop (S k) es)
  end.
Proof.
  revert i. induction es as [|[l|] es IH]; intros i; simpl; [done| |].
  - exists 0. split; [lia|]. by rewrite drop_0.
  - specialize (IH (S i)). destruct (scan (S i) es) as [[j l]|]; [|done].
    destruct IH as (k & -> & Hk & Ho). exists (S k). split; [lia|]. by split.
Qed.

Lemma next_entry_Some pos ls i l :
  next_entry pos ls = Some (i, l) →
  Some l ∈ ls ∧ omap id (drop pos ls) = l :: omap id (drop (S i) ls).
Proof.
  unfold next_entry. intros H.
  pose proof (scan_spec (drop pos ls) pos) as Hs. rewrite H in Hs.
  destruct Hs as (k & -> & Hk & Ho). split.
  - rewrite lookup_drop in Hk. by eapply list_elem_of_lookup_2.
  - rewrite Ho. f_equal. rewrite drop_drop. by rewrite Nat.add_succ_r.
Qed.

Lemma next_entry_None pos ls :
  next_entry pos ls = None → omap id (drop pos ls) = [].
Proof.
  unfold next_entry. intros H.
  pose proof (scan_spec (drop pos ls) pos) as Hs. by rewrite H in Hs.
Qed.

Lemma direct_app d tr1 tr2 : direct d (tr1 ++ tr2) = direct d tr1 ++ direct d tr2.
Proof. apply omap_app. Qed.

Lemma direct_cons d i tr :
  direct d (i :: tr) =
  match i with
  | Notified d' l e => if decide (d' = d) then [(l, e)] else []
  | _ => []
  end ++ direct d tr.
Proof. unfold direct. simpl. destruct i; try done. by case_decide. Qed.

Lemma direct_deeper d tr : Forall (item_depth_ge (S d)) tr → direct d tr = [].
Proof.
  induction 1 as [|i tr Hi _ IH]; [done|]. rewrite direct_cons, IH.
  destruct i; try done. simpl in Hi. case_decide; [lia | done].
Qed.

Lemma elem_of_direct d tr l e : (l, e) ∈ direct d tr ↔ Notified d l e ∈ tr.
Proof.
  unfold direct. rewrite list_elem_of_omap. split.
  - intros (i & Hi & H). destruct i; try done. case_decide; [|done].
    injection H as -> ->. by subst.
  - intros H. exists (Notified d l e). split; [done|]. by rewrite decide_True.
Qed.

Lemma times_notified_direct d l e tr :
  times_notified d l e tr = length (filter (λ p, p = (l, e)) (direct d tr)).
Proof.
  unfold times_notified. induction tr as [|i tr IH]; [done|].
  rewrite filter_cons, direct_cons, filter_app, length_app, <- IH.
  destruct i as [d' e'|d' l' e'|fps|l'|l'];
    try (by rewrite decide_False by done).
  destruct (decide (d' = d)) as [->|Hd].
  - rewrite filter_cons, filter_nil.
    destruct (decide ((l', e') = (l, e))) as [[= -> ->]|Hne].
    + by rewrite decide_True by done.
    + by rewrite decide_False by congruence.
  - by rewrite decide_False by congruence.
Qed.

Lemma count_absent (e : Event) (l : nat) (ks : list nat) :
  l ∉ ks → length (filter (λ p, p = (l, e)) ((λ k, (k, e)) <$> ks)) = 0.
Proof.
  induction ks as [|k ks IH]; intros Hin; [done|].
  rewrite fmap_cons, filter_cons. apply not_elem_of_cons in Hin as [Hne Hin].
  rewrite decide_False by congruence. by apply IH.
Qed.

Lemma count_NoDup (e : Event) (l : nat) (ks : list nat) :
  NoDup ks → l ∈ ks →
  length (filter (λ p, p = (l, e)) ((λ k, (k, e)) <$> ks)) = 1.
Proof.
  induction 1 as [|k ks Hk Hnd IH]; intros Hin; [by apply elem_of_nil in Hin|].
  rewrite fmap_cons, filter_cons. apply elem_of_cons in Hin as [->|Hin].
  - rewrite decide_True by done. simpl. f_equal. by apply count_absent.
  - rewrite decide_False; [by apply IH|]. intros [= ->]. done.
Qed.

Lemma live_keys_registered l w : l ∈ live_keys w → Some l ∈ listeners w.
Proof.
  unfold live_keys, keys. intros [_ H]%list_elem_of_filter.
  apply list_elem_of_omap in H as ([k|] & Hin & Hk); simpl in Hk; [|done].
  by injection Hk as ->.
Qed.

Lemma live_keys_alive l w : l ∈ live_keys w → is_Some (heap w !! l).
Proof.
  unfold live_keys. intros [H _]%list_elem_of_filter.
  unfold alive in H. by apply bool_decide_spec in H.
Qed.

Lemma PygameView_Notify_calm d l e w :
  ∃ w' tr, PygameView_Notify l e w = Ok w' ∧ calm d tr w w' ∧ Forall silent tr.
Proof.
  unfold PygameView_Notify, drawBackground. eexists.
  exists ((if decide (e = DrawEvent) then [Repaint l] else []) ++
          (if decide (e = QuitCleanupEvent) then [PygameQuit l] else [])).
  split; [done|].
  assert (Hs : Forall silent
    ((if decide (e = DrawEvent) then [Repaint l] else []) ++
     (if decide (e = QuitCleanupEvent) then [PygameQuit l] else []))).
  { repeat case_decide; simpl; by repeat constructor. }
  split; [|done]. split.
  - apply evolves_same_heap.
    + by repeat case_decide.
    + by repeat case_decide.
    + repeat case_decide; simpl; by rewrite ?app_nil_r, <- ?app_assoc.
    + intros d' l' e' H. eapply Forall_forall in Hs; [|exact H]. done.
  - by repeat case_decide.
  - intros d' l' e' H. eapply Forall_forall in Hs; [|exact H]. done.
  - left. eapply Forall_impl; [exact Hs|]. apply silent_not_broadcast.
Qed.

Section Tame.
Context (post : Event → World → Outcome) (d : nat) (e : Event).

(** A [QuitEvent] posted while another event is handled is broadcast to
    the end, one level down. *)
Hypothesis Hquit : e ≠ QuitEvent → ∀ w, tame w →
  ∃ w' tr, post QuitEvent w = Ok w' ∧ calm d tr w w' ∧ quit_done d tr w w' ∧
           Forall (item_depth_ge (S d)) tr.

Lemma poll_tame batch w :
  e ≠ QuitEvent → tame w →
  ∃ w' tr, poll post batch w = Ok w' ∧ calm d tr w w' ∧
           Forall (item_depth_ge (S d)) tr.
Proof using Hquit.
  intros He. revert w. induction batch as [|ev rest IH]; intros w Ht; simpl.
  - exists w, []. split; [done|]. split; [apply calm_refl | constructor].
  - destruct ev; simpl; [|by apply IH].
    destruct (Hquit He w Ht) as (w1 & tr1 & -> & C1 & _ & F1). simpl.
    destruct (IH w1 (calm_tame _ _ _ _ C1 Ht)) as (w2 & tr2 & -> & C2 & F2).
    exists w2, (tr1 ++ tr2). split; [done|].
    split; [by eapply calm_trans | by apply Forall_app].
Qed.

Lemma exec_tame c w :
  tame_cmd (listeners w) e c → tame w →
  ∃ w' tr, exec post c w = Ok w' ∧ calm d tr w w' ∧
           Forall (item_depth_ge (S d)) tr.
Proof using Hquit.
  destruct c as [l|l|e'|]; simpl; intros Hc Ht; [| | |done].
  - exists w, []. unfold RegisterListener. rewrite decide_True by done.
    split; [done|]. split; [apply calm_refl | constructor].
  - exists w, []. unfold UnregisterListener. rewrite decide_False.
    + split; [done|]. split; [apply calm_refl | constructor].
    + intros H. by apply live_keys_registered in H.
  - destruct Hc as [-> He].
    destruct (Hquit He w Ht) as (w1 & tr1 & H1 & C1 & _ & F1). by exists w1, tr1.
Qed.

Lemma run_script_tame cs w :
  Forall (tame_cmd (listeners w) e) cs → tame w →
  ∃ w' tr, run_script post cs w = Ok w' ∧ calm d tr w w' ∧
           Forall (item_depth_ge (S d)) tr.
Proof using Hquit.
  revert w. induction cs as [|c cs IH]; intros w Hcs Ht; simpl.
  - exists w, []. split; [done|]. split; [apply calm_refl | constructor].
  - apply Forall_cons in Hcs as [Hc Hcs].
    destruct (exec_tame c w Hc Ht) as (w1 & tr1 & -> & C1 & F1). simpl.
    destruct (IH w1) as (w2 & tr2 & -> & C2 & F2).
    + by rewrite (cm_listeners _ _ _ _ C1).
    + by eapply calm_tame.
    + exists w2, (tr1 ++ tr2). split; [done|].
      split; [by eapply calm_trans | by apply Forall_app].
Qed.

Lemma calm_notified l w :
  Some l ∈ listeners w → is_Some (heap w !! l) → running l w = None →
  calm d [Notified d l e] w (add_log (Notified d l e) w).
Proof.
  intros Hin Hal Hr. split; [by apply evolves_notified | done | |].
  - intros d' l' e' [= _ -> _]%list_elem_of_singleton. done.
  - left. repeat constructor. simpl. tauto.
Qed.

Lemma deliver_tame l w :
  tame w → Some l ∈ listeners w → is_Some (heap w !! l) →
  ∃ w' tr, deliver post d e l w = Ok w' ∧ calm d (Notified d l e :: tr) w w' ∧
           Forall (item_depth_ge (S d)) tr ∧
           (e = QuitEvent → running l w' ≠ Some true).
Proof using Hquit.
  intros Ht Hin Hal.
  assert (Ht0 : tame (add_log (Notified d l e) w)).
  { eapply tame_stable; [| |exact Ht]; [done | apply heap_le_refl]. }
  assert (Hgo : ∀ w' tr,
    calm d tr (add_log (Notified d l e) w) w' →
    Forall (item_depth_ge (S d)) tr →
    running l w = None →
    calm d (Notified d l e :: tr) w w' ∧ Forall (item_depth_ge (S d)) tr ∧
    (e = QuitEvent → running l w' ≠ Some true)).
  { intros w' tr C F Hr.
    pose proof (calm_trans _ _ _ _ _ _ (calm_notified l w Hin Hal Hr) C) as C1.
    split; [done|]. split; [done|]. intros _.
    eapply not_running_stable; [apply C1|]. by rewrite Hr. }
  unfold deliver, Notify. destruct Hal as [[n o] Hl].
  change (heap (add_log (Notified d l e) w)) with (heap w). rewrite Hl. simpl.
  assert (Hr : (∀ b, o ≠ TickController b) → running l w = None).
  { intros Ho. unfold running. rewrite Hl. simpl. destruct o as [| |b0|]; try done.
    by specialize (Ho b0). }
  destruct o as [| |b|k script].
  - destruct (PygameView_Notify_calm d l e (add_log (Notified d l e) w))
      as (w' & tr & -> & C & F).
    exists w', tr. split; [done|]. apply Hgo; [done | | by apply Hr].
    eapply Forall_impl; [exact F|]. apply silent_depth_ge.
  - unfold PygameController_Notify. case_decide as He.
    + destruct (poll_tame (hd [] (pygame_queue (add_log (Notified d l e) w)))
                  (set_pygame_queue (tl (pygame_queue (add_log (Notified d l e) w)))
                     (add_log (Notified d l e) w)))
        as (w' & tr & -> & C & F); [by subst e | done |].
      exists w', tr. split; [done|]. apply Hgo; [|done | by apply Hr].
      eapply (calm_trans d [] tr); [|exact C]. by apply calm_silent.
    + exists (add_log (Notified d l e) w), []. split; [done|].
      apply Hgo; [apply calm_refl | constructor | by apply Hr].
  - assert (E : ∀ w', TickController_Notify l e (add_log (Notified d l e) w) = Ok w' →
                      calm d [Notified d l e] w w').
    { intros w' H. split.
      - eapply TickController_Notify_evolves; [exact Hl | done | by rewrite H].
      - unfold TickController_Notify in H. case_decide; by injection H as <-.
      - intros d' l' e' [= _ -> _]%list_elem_of_singleton. done.
      - left. repeat constructor. simpl. tauto. }
    unfold TickController_Notify in *. case_decide as He.
    + eexists. exists []. split; [done|]. split; [by apply E|].
      split; [constructor|]. intros _. unfold running. simpl.
      by rewrite lookup_alter_eq, Hl.
    + eexists. exists []. split; [done|]. split; [by apply E|].
      split; [constructor | done].
  - destruct (run_script_tame (script k e)
                (set_obj l (Scripted (S k) script) (add_log (Notified d l e) w)))
      as (w' & tr & -> & C & F).
    + apply Forall_forall. intros c Hc. by apply (Ht l _ Hin Hl k e c).
    + eapply tame_stable; [| |exact Ht0]; [done|].
      by eapply (heap_le_set_obj l _ (add_log (Notified d l e) w)).
    + exists w', tr. split; [done|]. apply Hgo; [|done | by apply Hr].
      eapply (calm_trans d [] tr); [|exact C]. split; [| done | |left; constructor].
      * by eapply (evolves_bump l k script (add_log _ w)).
      * intros d' l' e' H. by apply elem_of_nil in H.
Qed.

Lemma for_keys_tame len pos w :
  tame w → length (omap id (drop pos (listeners w))) ≤ len →
  ∃ w' tr, for_keys (deliver post d e) len pos (dict_used w) w = Ok w' ∧
           calm d tr w w' ∧ Forall (post_item d e) tr ∧
           direct d tr =
             (λ l, (l, e)) <$>
               filter (λ l, alive l w) (omap id (drop pos (listeners w))) ∧
           (e = QuitEvent →
            ∀ s, s ∈ omap id (drop pos (listeners w)) → running s w' ≠ Some true).
Proof using Hquit.
  revert pos w. induction len as [|len IH]; intros pos w Ht Hlen; simpl;
    rewrite decide_True by done;
    destruct (next_entry pos (listeners w)) as [[i l]|] eqn:Hn.
  - apply next_entry_Some in Hn as [_ Hn]. rewrite Hn in Hlen. simpl in Hlen. lia.
  - apply next_entry_None in Hn. rewrite Hn. exists w, [].
    split; [done|]. split; [apply calm_refl|]. split; [constructor|].
    split; [done|]. intros _ s H. by apply elem_of_nil in H.
  - apply next_entry_Some in Hn as [Hin Hn]. rewrite Hn in *. simpl in Hlen.
    rewrite filter_cons. destruct (alive l w) eqn:Hal.
    + rewrite decide_True by done.
      apply bool_decide_eq_true in Hal.
      destruct (deliver_tame l w Ht Hin Hal) as (w1 & tr1 & -> & C1 & F1 & Q1).
      simpl. pose proof (cm_listeners _ _ _ _ C1) as L1.
      destruct (IH (S i) w1) as (w2 & tr2 & H2 & C2 & F2 & D2 & Q2).
      { by eapply calm_tame. }
      { rewrite L1. lia. }
      replace (dict_used w) with (dict_used w1)
        by (unfold dict_used, keys; by rewrite L1).
      rewrite H2. exists w2, ((Notified d l e :: tr1) ++ tr2).
      split; [done|]. split; [by eapply calm_trans|]. split; [|split].
      * apply Forall_app. split; [|done]. constructor; [left; by eexists|].
        eapply Forall_impl; [exact F1|]. intros i'. by right.
      * rewrite direct_app, direct_cons, decide_True by done.
        rewrite (direct_deeper d tr1 F1), D2, L1. simpl. f_equal. f_equal.
        apply list_filter_iff. intros l'. unfold alive.
        rewrite !bool_decide_spec. symmetry. apply heap_le_alive, C1.
      * intros He s [->|Hs]%elem_of_cons.
        -- eapply not_running_stable; [apply C2|]. by apply Q1.
        -- apply Q2; [done|]. by rewrite L1.
    + rewrite decide_False by (by intros []).
      destruct (IH (S i) w Ht) as (w2 & tr2 & H2 & C2 & F2 & D2 & Q2); [lia|].
      exists w2, tr2. split; [done|]. split; [done|]. split; [done|].
      split; [done|]. intros He s [->|Hs]%elem_of_cons; [|by apply Q2].
      eapply not_running_stable; [apply C2|]. unfold running.
      unfold alive in Hal. apply bool_decide_eq_false in Hal.
      destruct (heap w !! l); [|done]. exfalso. apply Hal. by eexists.
  - apply next_entry_None in Hn. rewrite Hn. exists w, [].
    split; [done|]. split; [apply calm_refl|]. split; [constructor|].
    split; [done|]. intros _ s H. by apply elem_of_nil in H.
Qed.
End Tame.

(** ** A whole broadcast among tame listeners *)

Lemma Post_S fuel d e w :
  Post (S fuel) d e w =
  for_keys (deliver (Post fuel (S d)) d e)
    (dict_used (add_log (Broadcast d e) w)) 0
    (dict_used (add_log (Broadcast d e) w)) (add_log (Broadcast d e) w).
Proof. done. Qed.

Lemma evolves_broadcast d e w : evolves [Broadcast d e] w (add_log (Broadcast d e) w).
Proof.
  apply evolves_same_heap; try done.
  intros d' l' e' [=]%list_elem_of_singleton.
Qed.

Lemma broadcast_ok_tame d e tr w w' : broadcast_ok d e tr w w' → tame w → tame w'.
Proof. intros B. apply tame_stable; [apply B | apply B]. Qed.

Lemma broadcast_ok_live_keys d e tr w w' :
  broadcast_ok d e tr w w' → live_keys w' = live_keys w.
Proof. intros B. apply live_keys_stable; [apply B | apply B]. Qed.

Lemma Post_tame_step post d e w :
  (e ≠ QuitEvent → ∀ w, tame w →
     ∃ w' tr, post QuitEvent w = Ok w' ∧ calm d tr w w' ∧ quit_done d tr w w' ∧
              Forall (item_depth_ge (S d)) tr) →
  tame w →
  ∃ w' tr,
    for_keys (deliver post d e)
      (dict_used (add_log (Broadcast d e) w)) 0
      (dict_used (add_log (Broadcast d e) w)) (add_log (Broadcast d e) w) = Ok w' ∧
    broadcast_ok d e tr w w'.
Proof.
  intros Hquit Ht.
  destruct (for_keys_tame post d e Hquit
              (dict_used (add_log (Broadcast d e) w)) 0 (add_log (Broadcast d e) w))
    as (w' & tr & H & C & F & D & Q).
  { eapply tame_stable; [| |exact Ht]; [done | apply heap_le_refl]. }
  { by rewrite drop_0. }
  exists w', tr. split; [done|]. destruct C as [E L R N]. split; try done.
  - apply (evolves_trans [_] tr _ _ _ (evolves_broadcast d e w) E).
  - intros -> s Hs. apply (Q eq_refl). rewrite drop_0.
    apply list_elem_of_omap. exists (Some s). by rewrite <- L.
Qed.

Lemma Post_tame_quit fuel d w :
  tame w →
  ∃ w' tr, Post (S fuel) d QuitEvent w = Ok w' ∧ broadcast_ok d QuitEvent tr w w'.
Proof. intros Ht. rewrite Post_S. by apply Post_tame_step. Qed.

(** Two units of fuel are enough for any broadcast among tame listeners. *)
Lemma Post_tame fuel d e w :
  tame w →
  ∃ w' tr, Post (S (S fuel)) d e w = Ok w' ∧ broadcast_ok d e tr w w'.
Proof.
  intros Ht. rewrite Post_S. apply Post_tame_step; [|done].
  intros _ w1 Ht1.
  destruct (Post_tame_quit fuel (S d) w1 Ht1) as (w' & tr & H & B).
  exists w', (Broadcast (S d) QuitEvent :: tr). split; [done|].
  assert (Hq : quit_done d (Broadcast (S d) QuitEvent :: tr) w1 w').
  { split; [by apply B|]. intros l Hl. apply elem_of_cons. right.
    apply elem_of_direct. rewrite (bo_direct _ _ _ _ _ B).
    apply list_elem_of_fmap. by exists l. }
  split; [|split; [done|]].
  - split; [apply B | apply B | | by right].
    intros d' l e' [[=]|Hin]%elem_of_cons. by eapply B.
  - constructor; [simpl; lia|].
    eapply Forall_impl; [apply B|]. apply post_item_depth_ge.
Qed.

(** ** The trace of the run loop *)

Lemma own_app tr1 tr2 : own (tr1 ++ tr2) = own tr1 ++ own tr2.
Proof. apply filter_app. Qed.

Lemma own_post_items e tr : Forall (post_item 0 e) tr → own tr = [].
Proof.
  induction 1 as [|i tr Hi _ IH]; [done|]. unfold own in *. rewrite filter_cons, IH.
  destruct Hi as [[l ->]|Hi]; [done|].
  destruct i as [[|d'] e'|d' l' e'|fps|l'|l']; simpl in *; try done. lia.
Qed.

Lemma own_broadcast e tr :
  Forall (post_item 0 e) tr → own (Broadcast 0 e :: tr) = [Broadcast 0 e].
Proof. intros H. unfold own. rewrite filter_cons. simpl. f_equal. by apply (own_post_items e). Qed.

Lemma evolves_tick fps w : evolves [Tick fps] w (clock_tick fps w).
Proof.
  apply evolves_same_heap; try done.
  intros d' l' e' [=]%list_elem_of_singleton.
Qed.

Lemma Post_final fuel e w w' :
  final (Post fuel 0 e w) = Some w' → ∃ tr, evolves tr w w'.
Proof. intros (tr & E & _)%Post_evolves. by eexists. Qed.

Lemma Post_own fuel e w w' :
  Post fuel 0 e w = Ok w' → ∃ tr, evolves tr w w' ∧ own tr = [Broadcast 0 e].
Proof.
  intros H. destruct (Post_evolves fuel 0 e w w') as (tr & E & F); [by rewrite H|].
  exists (Broadcast 0 e :: tr). split; [done|]. by apply own_broadcast.
Qed.

Lemma Run_body_final fuel w w' :
  final (Run_body fuel w) = Some w' → ∃ tr, evolves tr w w'.
Proof.
  unfold Run_body.
  intros [(w1 & H1 & H)|(x & H1)]%final_bind;
    [|apply (Post_final fuel UpdateEvent); by rewrite H1].
  destruct (Post_final fuel UpdateEvent w w1) as (tr1 & E1); [by rewrite H1|].
  apply final_bind in H as [(w2 & H2 & H)|(x & H2)].
  - destruct (Post_final fuel DrawEvent w1 w2) as (tr2 & E2); [by rewrite H2|].
    pose proof (evolves_trans _ _ _ _ _ (evolves_trans _ _ _ _ _ E1 E2)
                  (evolves_tick 30 w2)) as E3.
    apply final_bind in H as [(w3 & H3 & H)|(x & H3)].
    + destruct (Post_final fuel DrawEvent (clock_tick 30 w2) w3) as (tr3 & E4);
        [by rewrite H3|].
      injection H as <-. eexists.
      exact (evolves_trans _ _ _ _ _ (evolves_trans _ _ _ _ _ E3 E4)
               (evolves_tick 30 w3)).
    + destruct (Post_final fuel DrawEvent (clock_tick 30 w2) w') as (tr3 & E4);
        [by rewrite H3|].
      eexists. exact (evolves_trans _ _ _ _ _ E3 E4).
  - destruct (Post_final fuel DrawEvent w1 w') as (tr2 & E2); [by rewrite H2|].
    eexists. exact (evolves_trans _ _ _ _ _ E1 E2).
Qed.

Lemma Run_body_own fuel w w' :
  Run_body fuel w = Ok w' → ∃ tr, evolves tr w w' ∧ own tr = turn.
Proof.
  unfold Run_body. intros H.
  destruct (Post fuel 0 UpdateEvent w) as [w1| |] eqn:H1; [|done..].
  simpl in H. destruct (Post fuel 0 DrawEvent w1) as [w2| |] eqn:H2; [|done..].
  simpl in H.
  destruct (Post fuel 0 DrawEvent (clock_tick 30 w2)) as [w3| |] eqn:H3; [|done..].
  simpl in H. injection H as <-.
  apply Post_own in H1 as (tr1 & E1 & O1). apply Post_own in H2 as (tr2 & E2 & O2).
  apply Post_own in H3 as (tr3 & E3 & O3).
  exists ((((tr1 ++ tr2) ++ [Tick 30]) ++ tr3) ++ [Tick 30]). split.
  - exact (evolves_trans _ _ _ _ _
             (evolves_trans _ _ _ _ _
                (evolves_trans _ _ _ _ _ (evolves_trans _ _ _ _ _ E1 E2)
                   (evolves_tick 30 w2)) E3) (evolves_tick 30 w3)).
  - rewrite !own_app, O1, O2, O3. done.
Qed.

Lemma Run_final iters fuel s w w' :
  final (Run iters fuel s w) = Some w' → ∃ tr, evolves tr w w'.
Proof.
  revert w. induction iters as [|n IH]; intros w; simpl;
    destruct (default false (running s w)); try done; try apply Post_final.
  intros [(w1 & H1 & H)|(x & H1)]%final_bind.
  - destruct (Run_body_final fuel w w1) as (tr1 & E1); [by rewrite H1|].
    destruct (IH _ H) as (tr2 & E2). eexists. exact (evolves_trans _ _ _ _ _ E1 E2).
  - apply (Run_body_final fuel). by rewrite H1.
Qed.

(** A run that returns has made whole turns and then one broadcast of
    [QuitCleanupEvent]. *)
Lemma Run_own iters fuel s w w' :
  Run iters fuel s w = Ok w' →
  ∃ tr n, evolves tr w w' ∧ n ≤ iters ∧
          own tr = turns n ++ [Broadcast 0 QuitCleanupEvent].
Proof.
  revert w. induction iters as [|k IH]; intros w; simpl;
    destruct (default false (running s w)); try done.
  - intros (tr & E & O)%Post_own. exists tr, 0. by split; [|split; [lia|]].
  - intros H. destruct (Run_body fuel w) as [w1| |] eqn:H1; [|done..]. simpl in H.
    apply Run_body_own in H1 as (tr1 & E1 & O1).
    destruct (IH _ H) as (tr2 & n & E2 & Hn & O2).
    exists (tr1 ++ tr2), (S n). split; [by eapply evolves_trans|]. split; [lia|].
    rewrite own_app, O1, O2. unfold turns.
    change (mjoin (replicate (S n) turn)) with (turn ++ mjoin (replicate n turn)).
    by rewrite app_assoc.
  - intros (tr & E & O)%Post_own. exists tr, 0. by split; [|split; [lia|]].
Qed.

(** * The event manager: registration and broadcast *)

Lemma wf_live_keys w : wf w → NoDup (live_keys w).
Proof. apply NoDup_filter. Qed.

Lemma demo_listeners q : listeners (demo q) = [Some 0; Some 1; Some 2; Some 3].
Proof. done. Qed.

Lemma demo_tame q : tame (demo q).
Proof.
  intros l c Hin Hl. rewrite demo_listeners in *.
  repeat (apply elem_of_cons in Hin as [[= ->]|Hin]);
    [| | | |by apply elem_of_nil in Hin];
    vm_compute in Hl; injection Hl as <-; try exact I.
  intros n e c Hc. by apply elem_of_nil in Hc.
Qed.

Lemma demo_wf q : wf (demo q).
Proof.
  unfold wf, keys. rewrite demo_listeners. by apply (bool_decide_unpack _).
Qed.

(** Shared by the claims on notification counts. *)
Lemma broadcast_counts (fuel d : nat) (e : Event) (w : World) :
  tame w → wf w →
  ∃ w' tr, Post (S (S fuel)) d e w = Ok w' ∧
           log w' = log w ++ Broadcast d e :: tr ∧
           (∀ l, l ∈ live_keys w → times_notified d l e tr = 1).
Proof.
  intros Ht Hwf. destruct (Post_tame fuel d e w Ht) as (w' & tr & H & B).
  exists w', tr. split; [done|]. split; [apply B|].
  intros l Hl. rewrite times_notified_direct, (bo_direct _ _ _ _ _ B).
  apply count_NoDup; [by apply wf_live_keys | done].
Qed.

(** C1, amended.  Among listeners whose handlers return and leave the set
    of registered listeners as it is, [Post(e)] returns, and it has called
    [Notify(e)] exactly once on every listener that was registered and
    alive when it was called; every call of [Notify] it made was on such a
    listener and passed the event [e] itself. *)
Theorem Post_notifies_each_listener_once (fuel d : nat) (e : Event) (w : World) :
  tame w → wf w →
  ∃ w' tr, Post (S (S fuel)) d e w = Ok w' ∧
           log w' = log w ++ Broadcast d e :: tr ∧
           (∀ l, l ∈ live_keys w → times_notified d l e tr = 1) ∧
           (∀ l e', Notified d l e' ∈ tr → e' = e ∧ l ∈ live_keys w).
Proof.
  intros Ht Hwf. destruct (Post_tame fuel d e w Ht) as (w' & tr & H & B).
  exists w', tr. split; [done|]. split; [apply B|]. split.
  - intros l Hl. rewrite times_notified_direct, (bo_direct _ _ _ _ _ B).
    apply count_NoDup; [by apply wf_live_keys | done].
  - intros l e' Hin. apply elem_of_direct in Hin.
    rewrite (bo_direct _ _ _ _ _ B) in Hin.
    apply list_elem_of_fmap in Hin as (k & [= -> ->] & Hk). done.
Qed.

Lemma Post_notifies_each_listener_once_witness :
  ∃ w' tr, Post 2 0 UpdateEvent (demo [[QUIT]]) = Ok w' ∧
           log w' = log (demo [[QUIT]]) ++ Broadcast 0 UpdateEvent :: tr ∧
           (∀ l, l ∈ live_keys (demo [[QUIT]]) →
                 times_notified 0 l UpdateEvent tr = 1) ∧
           (∀ l e', Notified 0 l e' ∈ tr →
                    e' = UpdateEvent ∧ l ∈ live_keys (demo [[QUIT]])).
Proof.
  apply (Post_notifies_each_listener_once 0 0 UpdateEvent (demo [[QUIT]])).
  - apply demo_tame.
  - apply demo_wf.
Defined.

(** C1, as stated, fails.  The recorder 1 is registered and alive when
    [Post] is called.  When the handler of the listener before it
    registers a third object, [Post] raises [RuntimeError] at its next
    step; when that handler unregisters the recorder and registers a third
    object, [Post] returns.  Either way [Notify] has not been called on
    the recorder 1. *)
Lemma Post_notifies_counterexample :
  1 ∈ live_keys (crowd eager) ∧
  (∃ w', Post 2 0 UpdateEvent (crowd eager) = Exn RuntimeError w' ∧
         log w' = [Broadcast 0 UpdateEvent; Notified 0 0 UpdateEvent] ∧
         times_notified 0 1 UpdateEvent (log w') = 0) ∧
  1 ∈ live_keys (crowd swapper) ∧
  (∃ w', Post 2 0 UpdateEvent (crowd swapper) = Ok w' ∧
         log w' = [Broadcast 0 UpdateEvent; Notified 0 0 UpdateEvent;
                   Notified 0 2 UpdateEvent] ∧
         times_notified 0 1 UpdateEvent (log w') = 0).
Proof.
  split; [by apply (bool_decide_unpack _)|]. split.
  { eexists. split; [vm_compute; reflexivity|]. by vm_compute. }
  split; [by apply (bool_decide_unpack _)|].
  eexists. split; [vm_compute; reflexivity|]. by vm_compute.
Qed.

Lemma elem_of_keys l w : l ∈ keys w ↔ Some l ∈ listeners w.
Proof.
  unfold keys. rewrite list_elem_of_omap. split.
  - intros ([k|] & Hin & Hk); simpl in Hk; [|done]. by injection Hk as ->.
  - intros H. by exists (Some l).
Qed.

Lemma elem_of_live_keys l w :
  l ∈ live_keys w ↔ is_Some (heap w !! l) ∧ Some l ∈ listeners w.
Proof.
  unfold live_keys. rewrite list_elem_of_filter, elem_of_keys.
  unfold alive. by rewrite bool_decide_spec.
Qed.

Lemma wf_RegisterListener l w : wf w → wf (RegisterListener l w).
Proof.
  unfold wf, RegisterListener. case_decide as Hin; [done|].
  unfold keys. simpl. rewrite omap_app. simpl. intros Hnd.
  apply NoDup_app. split; [done|]. split; [|apply NoDup_singleton].
  intros k Hk ->%list_elem_of_singleton. apply Hin. by apply elem_of_keys.
Qed.

Lemma RegisterListener_registered l w : Some l ∈ listeners (RegisterListener l w).
Proof.
  unfold RegisterListener. case_decide; [done|]. simpl.
  apply elem_of_app. right. by apply list_elem_of_singleton.
Qed.

Lemma not_elem_of_del_key l ls : Some l ∉ del_key l ls.
Proof.
  unfold del_key. intros (s & Hs & _)%list_elem_of_fmap. by case_decide.
Qed.

Lemma UnregisterListener_unregistered l w :
  is_Some (heap w !! l) → Some l ∉ listeners (UnregisterListener l w).
Proof.
  intros Hal. unfold UnregisterListener. case_decide as Hin.
  - apply not_elem_of_del_key.
  - intros H. apply Hin. by apply elem_of_live_keys.
Qed.

Lemma next_entry_empty w : keys w = [] → next_entry 0 (listeners w) = None.
Proof.
  intros Hk. destruct (next_entry 0 (listeners w)) as [[i l]|] eqn:Hn; [|done].
  apply next_entry_Some in Hn as [_ Hn]. rewrite drop_0 in Hn.
  unfold keys in Hk. by rewrite Hk in Hn.
Qed.

Lemma for_keys_Ok_used body len pos used w w' :
  for_keys body len pos used w = Ok w' → dict_used w' = used.
Proof.
  revert pos w. induction len as [|len IH]; intros pos w; simpl;
    (case_decide as Hu; [|done]);
    (destruct (next_entry pos (listeners w)) as [[i l]|]; [|by intros [= <-]]);
    [done|].
  destruct (alive l w); [|by apply IH].
  destruct (body l w) as [w1| |]; simpl; [by apply IH | done..].
Qed.

(** C6.  Registering a listener a second time changes nothing: the world
    after the second registration is the world after the first, and the
    registration of a listener that is already registered returns the world
    it was given.  The broadcast that follows calls [Notify] on the
    listener exactly once. *)
Theorem RegisterListener_idempotent (fuel d : nat) (e : Event) (l : nat) (w : World) :
  wf w → tame (RegisterListener l w) → is_Some (heap w !! l) →
  RegisterListener l (RegisterListener l w) = RegisterListener l w ∧
  (Some l ∈ listeners w → RegisterListener l w = w) ∧
  ∃ w' tr,
    Post (S (S fuel)) d e (RegisterListener l (RegisterListener l w)) = Ok w' ∧
    log w' = log w ++ Broadcast d e :: tr ∧
    times_notified d l e tr = 1.
Proof.
  intros Hwf Ht Hal.
  assert (Hid : RegisterListener l (RegisterListener l w) = RegisterListener l w).
  { unfold RegisterListener at 1. rewrite decide_True; [done|].
    apply RegisterListener_registered. }
  split; [done|]. split.
  { intros Hin. unfold RegisterListener. by rewrite decide_True. }
  rewrite Hid.
  destruct (broadcast_counts fuel d e (RegisterListener l w))
    as (w' & tr & H & Hl & Hn); [done | by apply wf_RegisterListener|].
  exists w', tr. split; [done|]. split.
  - rewrite Hl. f_equal. unfold RegisterListener. by case_decide.
  - apply Hn. apply elem_of_live_keys. split.
    + unfold RegisterListener. by case_decide.
    + apply RegisterListener_registered.
Qed.

Lemma lobby_wf q : wf (lobby q).
Proof. by apply (bool_decide_unpack _). Qed.

Lemma lobby_tame q : tame (lobby q).
Proof.
  intros l c Hin Hl. change (listeners (lobby q)) with [Some 0; Some 1; Some 2] in *.
  repeat (apply elem_of_cons in Hin as [[= ->]|Hin]);
    [| | |by apply elem_of_nil in Hin];
    vm_compute in Hl; injection Hl as <-; exact I.
Qed.

Lemma RegisterListener_idempotent_witness :
  RegisterListener 3 (RegisterListener 3 (lobby [[QUIT]])) =
    RegisterListener 3 (lobby [[QUIT]]) ∧
  (Some 3 ∈ listeners (lobby [[QUIT]]) →
   RegisterListener 3 (lobby [[QUIT]]) = lobby [[QUIT]]) ∧
  ∃ w' tr,
    Post 2 0 DrawEvent (RegisterListener 3 (RegisterListener 3 (lobby [[QUIT]]))) = Ok w' ∧
    log w' = log (lobby [[QUIT]]) ++ Broadcast 0 DrawEvent :: tr ∧
    times_notified 0 3 DrawEvent tr = 1.
Proof.
  apply (RegisterListener_idempotent 0 0 DrawEvent 3 (lobby [[QUIT]])).
  - apply lobby_wf.
  - exact (demo_tame [[QUIT]]).
  - vm_compute. by eexists.
Defined.

(** C7.  [UnregisterListener] returns for every listener and every
    registry: on a listener that is not registered it returns the world it
    was given; after it the listener is not registered, and the broadcast
    that follows returns without calling its [Notify], at any depth, and
    leaves the registry as it is.  A broadcast on an empty registry returns
    having done nothing but being entered. *)
Theorem UnregisterListener_total (fuel d : nat) (e : Event) (l : nat) (w : World) :
  tame (UnregisterListener l w) → is_Some (heap w !! l) →
  ((Some l ∉ listeners w) → UnregisterListener l w = w) ∧
  (Some l ∉ listeners (UnregisterListener l w)) ∧
  (∃ w' tr,
     Post (S (S fuel)) d e (UnregisterListener l w) = Ok w' ∧
     log w' = log w ++ Broadcast d e :: tr ∧
     listeners w' = listeners (UnregisterListener l w) ∧
     ∀ d' e', Notified d' l e' ∉ tr) ∧
  (∀ w0, keys w0 = [] → Post (S fuel) d e w0 = Ok (add_log (Broadcast d e) w0)).
Proof.
  intros Ht Hal. split; [|split; [|split]].
  - intros Hin. unfold UnregisterListener. rewrite decide_False; [done|].
    intros H. by apply live_keys_registered in H.
  - by apply UnregisterListener_unregistered.
  - destruct (Post_tame fuel d e _ Ht) as (w' & tr & H & B).
    exists w', tr. split; [done|]. split; [|split; [apply B|]].
    + rewrite (ev_log _ _ _ (bo_evolves _ _ _ _ _ B)). f_equal.
      unfold UnregisterListener. by case_decide.
    + intros d' e' Hin. apply (bo_registered _ _ _ _ _ B) in Hin.
      by apply UnregisterListener_unregistered in Hin.
  - intros w0 Hk. rewrite Post_S.
    change (dict_used (add_log (Broadcast d e) w0)) with (dict_used w0).
    unfold dict_used. rewrite Hk. simpl.
    change (listeners (add_log (Broadcast d e) w0)) with (listeners w0).
    rewrite decide_True; [by rewrite next_entry_empty|].
    change (0 = length (keys w0)). by rewrite Hk.
Qed.

Lemma UnregisterListener_total_witness :
  ((Some 3 ∉ listeners (demo [[QUIT]])) →
   UnregisterListener 3 (demo [[QUIT]]) = demo [[QUIT]]) ∧
  (Some 3 ∉ listeners (UnregisterListener 3 (demo [[QUIT]]))) ∧
  (∃ w' tr,
     Post 2 0 DrawEvent (UnregisterListener 3 (demo [[QUIT]])) = Ok w' ∧
     log w' = log (demo [[QUIT]]) ++ Broadcast 0 DrawEvent :: tr ∧
     listeners w' = listeners (UnregisterListener 3 (demo [[QUIT]])) ∧
     ∀ d' e', Notified d' 3 e' ∉ tr) ∧
  (∀ w0, keys w0 = [] → Post 1 0 DrawEvent w0 = Ok (add_log (Broadcast 0 DrawEvent) w0)).
Proof.
  apply (UnregisterListener_total 0 0 DrawEvent 3 (demo [[QUIT]])).
  - intros l c Hin Hl.
    change (listeners (UnregisterListener 3 (demo [[QUIT]])))
      with [Some 0; Some 1; Some 2; None] in *.
    repeat (apply elem_of_cons in Hin as [[= ->]|Hin]);
      try (by apply elem_of_nil in Hin);
      vm_compute in Hl; injection Hl as <-; exact I.
  - vm_compute. by eexists.
Defined.

(** ** Weak references *)

Lemma decref_last l w c :
  heap w !! l = Some c → strong c ≤ 1 →
  heap (decref l w) !! l = None ∧ Some l ∉ listeners (decref l w).
Proof.
  intros Hl Hs. unfold decref. rewrite Hl, decide_True by done. simpl.
  split; [apply lookup_delete_eq | apply not_elem_of_del_key].
Qed.

Lemma decref_more l w c :
  heap w !! l = Some c → 1 < strong c →
  heap (decref l w) !! l = Some (mkCell (pred (strong c)) (obj c)) ∧
  listeners (decref l w) = listeners w.
Proof.
  intros Hl Hs. unfold decref. rewrite Hl, decide_False by lia. simpl.
  by rewrite lookup_insert_eq.
Qed.

(** Every holder of a reference to [l] lets go of it. *)
Lemma release_all l n w c :
  heap w !! l = Some c → strong c = S n →
  heap (Nat.iter (S n) (decref l) w) !! l = None ∧
  Some l ∉ listeners (Nat.iter (S n) (decref l) w).
Proof.
  revert w c. induction n as [|n IH]; intros w c Hl Hs.
  - simpl. apply (decref_last l w c); [done | lia].
  - rewrite Nat.iter_succ_r.
    destruct (decref_more l w c Hl) as [Hl' _]; [lia|].
    apply (IH _ _ Hl'). simpl. lia.
Qed.

(** C9.  Registration takes no reference to the listener: the heap, and with
    it the count of strong references, is as before.  When every holder of
    a reference has let go, the listener is gone from the heap and from the
    registry although it was never unregistered; no broadcast calls its
    [Notify] any more, however it ends, and a broadcast among tame
    listeners returns. *)
Theorem registration_is_weak (fuel d : nat) (e : Event) (l : nat) (c : Cell) (w : World) :
  heap w !! l = Some c → 0 < strong c →
  heap (RegisterListener l w) = heap w ∧
  Some l ∈ listeners (RegisterListener l w) ∧
  heap (Nat.iter (strong c) (decref l) (RegisterListener l w)) !! l = None ∧
  (Some l ∉ listeners (Nat.iter (strong c) (decref l) (RegisterListener l w))) ∧
  (∀ w' tr,
     final (Post fuel d e (Nat.iter (strong c) (decref l) (RegisterListener l w))) = Some w' →
     log w' = log (Nat.iter (strong c) (decref l) (RegisterListener l w)) ++ tr →
     ∀ d' e', Notified d' l e' ∉ tr) ∧
  (tame (Nat.iter (strong c) (decref l) (RegisterListener l w)) →
   ∃ w', Post (S (S fuel)) d e
           (Nat.iter (strong c) (decref l) (RegisterListener l w)) = Ok w').
Proof.
  intros Hl Hs.
  assert (Hh : heap (RegisterListener l w) = heap w).
  { unfold RegisterListener. by case_decide. }
  split; [done|]. split; [apply RegisterListener_registered|].
  destruct (strong c) as [|n] eqn:Hn; [lia|].
  destruct (release_all l n (RegisterListener l w) c) as [Hgone Hout];
    [by rewrite Hh | done |].
  split; [done|]. split; [done|]. split.
  - intros w' tr Hf Hlog d' e' Hin.
    destruct (Post_evolves _ _ _ _ _ Hf) as (tr' & E & _).
    rewrite (ev_log _ _ _ E) in Hlog. apply app_inv_head in Hlog. subst tr.
    apply (ev_alive _ _ _ E) in Hin. rewrite Hgone in Hin. by destruct Hin.
  - intros Ht. destruct (Post_tame fuel d e _ Ht) as (w' & tr & H & _). by exists w'.
Qed.

Lemma registration_is_weak_witness :
  heap (RegisterListener 3 (incref 3 (lobby [[QUIT]]))) = heap (incref 3 (lobby [[QUIT]])) ∧
  Some 3 ∈ listeners (RegisterListener 3 (incref 3 (lobby [[QUIT]]))) ∧
  heap (Nat.iter 2 (decref 3) (RegisterListener 3 (incref 3 (lobby [[QUIT]])))) !! 3 = None ∧
  (Some 3 ∉ listeners (Nat.iter 2 (decref 3) (RegisterListener 3 (incref 3 (lobby [[QUIT]]))))) ∧
  (∀ w' tr,
     final (Post 2 0 DrawEvent
              (Nat.iter 2 (decref 3) (RegisterListener 3 (incref 3 (lobby [[QUIT]]))))) = Some w' →
     log w' = log (Nat.iter 2 (decref 3) (RegisterListener 3 (incref 3 (lobby [[QUIT]])))) ++ tr →
     ∀ d' e', Notified d' 3 e' ∉ tr) ∧
  (tame (Nat.iter 2 (decref 3) (RegisterListener 3 (incref 3 (lobby [[QUIT]])))) →
   ∃ w', Post 4 0 DrawEvent
           (Nat.iter 2 (decref 3) (RegisterListener 3 (incref 3 (lobby [[QUIT]])))) = Ok w').
Proof.
  apply (registration_is_weak 2 0 DrawEvent 3 (mkCell 2 recorder)
           (incref 3 (lobby [[QUIT]]))).
  - vm_compute. reflexivity.
  - simpl. lia.
Defined.

(** ** Registering and unregistering during a broadcast *)

(** C5, as stated, fails.  Listeners 0 and 1 are registered and alive.
    When the handler of listener 0 registers a third listener, the
    broadcast raises [RuntimeError] as soon as that handler returns, and
    listener 1 is never notified.  When the handler of listener 0
    unregisters listener 1 and registers a third listener, the broadcast
    returns, listener 1 has not been notified, and the third listener,
    which was not registered when the broadcast began, has been. *)
Lemma Post_snapshot_counterexample :
  live_keys (crowd eager) = [0; 1] ∧
  (∃ w', Post 2 0 DrawEvent (crowd eager) = Exn RuntimeError w' ∧
         log w' = [Broadcast 0 DrawEvent; Notified 0 0 DrawEvent] ∧
         times_notified 0 1 DrawEvent (log w') = 0) ∧
  live_keys (crowd swapper) = [0; 1] ∧
  (∃ w', Post 2 0 DrawEvent (crowd swapper) = Ok w' ∧
         log w' = [Broadcast 0 DrawEvent; Notified 0 0 DrawEvent;
                   Notified 0 2 DrawEvent] ∧
         times_notified 0 1 DrawEvent (log w') = 0).
Proof.
  split; [reflexivity|]. split.
  - eexists. split; [vm_compute; reflexivity|]. by split.
  - split; [reflexivity|]. eexists. split; [vm_compute; reflexivity|]. by split.
Qed.

Lemma crowd_fussy_tame : tame (crowd fussy).
Proof.
  intros l c Hin Hl. change (listeners (crowd fussy)) with [Some 0; Some 1] in *.
  repeat (apply elem_of_cons in Hin as [[= ->]|Hin]);
    try (by apply elem_of_nil in Hin);
    vm_compute in Hl; injection Hl as <-; simpl.
  - intros n e c Hc.
    repeat (apply elem_of_cons in Hc as [->|Hc]);
      try (by apply elem_of_nil in Hc); simpl; by apply (bool_decide_unpack _).
  - intros n e c Hc. by apply elem_of_nil in Hc.
Qed.

(** C5, amended.  [Post] walks the registry itself, not a copy of it.
    (1) While the handlers leave the set of registered listeners as it is
    (a handler may register a listener that is registered and unregister
    one that is not), the broadcast returns, it has called [Notify] on the
    listeners that were registered and alive at its start, once each and
    in the order of the registry, and the registry is unchanged.
    (2) A broadcast that returns has left the number of registered
    listeners as it found it.
    (3) Wherever the walk stands, a handler that returns with the number
    of registered listeners changed makes the walk raise [RuntimeError] at
    its next step, in the world that handler left. *)
Theorem Post_walks_live_registry (fuel d : nat) (e : Event) (w : World) :
  (tame w →
   ∃ w' tr, Post (S (S fuel)) d e w = Ok w' ∧
            log w' = log w ++ Broadcast d e :: tr ∧
            direct d tr = (λ l, (l, e)) <$> live_keys w ∧
            listeners w' = listeners w) ∧
  (∀ w', Post fuel d e w = Ok w' → dict_used w' = dict_used w) ∧
  (∀ body len pos i l w1,
     next_entry pos (listeners w) = Some (i, l) → alive l w = true →
     body l w = Ok w1 → dict_used w1 ≠ dict_used w →
     for_keys body (S len) pos (dict_used w) w = Exn RuntimeError w1).
Proof.
  split; [|split].
  - intros Ht. destruct (Post_tame fuel d e w Ht) as (w' & tr & H & B).
    exists w', tr. split; [done|]. split; [apply B|]. split; apply B.
  - destruct fuel as [|fuel]; [done|]. rewrite Post_S. intros w' H.
    by apply for_keys_Ok_used in H.
  - intros body len pos i l w1 Hn Hal Hb Hne. simpl.
    rewrite decide_True, Hn, Hal, Hb by done. simpl.
    destruct len; simpl; by rewrite decide_False by done.
Qed.

Lemma Post_walks_live_registry_witness :
  ∃ w' tr, Post 2 0 DrawEvent (crowd fussy) = Ok w' ∧
           log w' = log (crowd fussy) ++ Broadcast 0 DrawEvent :: tr ∧
           direct 0 tr = (λ l, (l, DrawEvent)) <$> live_keys (crowd fussy) ∧
           listeners w' = listeners (crowd fussy).
Proof.
  exact (proj1 (Post_walks_live_registry 0 0 DrawEvent (crowd fussy)) crowd_fussy_tame).
Defined.

(** * The run loop *)

Arguments Post : simpl never.

Lemma bind_Ok w k : bind (Ok w) k = k w.
Proof. done. Qed.

Lemma Run_S n fuel s w :
  Run (S n) fuel s w =
  if default false (running s w)
  then let* w1 := Run_body fuel w in Run n fuel s w1
  else Post fuel 0 QuitCleanupEvent w.
Proof. done. Qed.

(** A loop that has stopped does not turn again: it only broadcasts the
    cleanup. *)
Lemma Run_stopped iters fuel s w :
  running s w ≠ Some true → Run iters fuel s w = Post fuel 0 QuitCleanupEvent w.
Proof.
  intros Hr. destruct iters; simpl; destruct (running s w) as [[|]|]; done.
Qed.

Lemma observed_app r tr1 tr2 : observed r (tr1 ++ tr2) = observed r tr1 ++ observed r tr2.
Proof. unfold observed. by rewrite direct_app, omap_app. Qed.

Lemma observed_fmap r e ks :
  NoDup ks → r ∈ ks →
  omap (λ p : nat * Event, if decide (p.1 = r) then Some p.2 else None)
    ((λ k, (k, e)) <$> ks) = [e].
Proof.
  assert (Hno : ∀ ks', r ∉ ks' →
    omap (λ p : nat * Event, if decide (p.1 = r) then Some p.2 else None)
      ((λ k, (k, e)) <$> ks') = []).
  { induction ks' as [|k ks' IH]; [done|]. intros [Hne Hin]%not_elem_of_cons.
    simpl. rewrite decide_False by done. by apply IH. }
  induction 1 as [|k ks Hk Hnd IH]; intros Hin; [by apply elem_of_nil in Hin|].
  simpl. apply elem_of_cons in Hin as [->|Hin].
  - rewrite decide_True by done. f_equal. by apply Hno.
  - rewrite decide_False; [by apply IH|]. intros ->. done.
Qed.

Lemma observed_broadcast r d e tr w w' :
  wf w → r ∈ live_keys w → broadcast_ok 0 e tr w w' →
  observed r (Broadcast d e :: tr) = [e].
Proof.
  intros Hwf Hr B. unfold observed. rewrite direct_cons. simpl.
  rewrite (bo_direct _ _ _ _ _ B). apply observed_fmap; [by apply wf_live_keys | done].
Qed.

Lemma wf_stable w w' : listeners w' = listeners w → wf w → wf w'.
Proof. unfold wf, keys. by intros ->. Qed.

(** One turn among tame listeners. *)
Lemma Run_body_tame fuel r w :
  tame w → wf w → r ∈ live_keys w →
  ∃ w' tr, Run_body (S (S fuel)) w = Ok w' ∧ evolves tr w w' ∧
           listeners w' = listeners w ∧ own tr = turn ∧
           observed r tr = [UpdateEvent; DrawEvent; DrawEvent].
Proof.
  intros Ht Hwf Hr. unfold Run_body.
  destruct (Post_tame fuel 0 UpdateEvent w Ht) as (w1 & tr1 & -> & B1).
  rewrite bind_Ok.
  pose proof (broadcast_ok_tame _ _ _ _ _ B1 Ht) as Ht1.
  pose proof (wf_stable _ _ (bo_listeners _ _ _ _ _ B1) Hwf) as Hwf1.
  pose proof (broadcast_ok_live_keys _ _ _ _ _ B1) as Hk1.
  destruct (Post_tame fuel 0 DrawEvent w1 Ht1) as (w2 & tr2 & -> & B2).
  rewrite bind_Ok.
  pose proof (broadcast_ok_tame _ _ _ _ _ B2 Ht1) as Ht2.
  pose proof (wf_stable _ _ (bo_listeners _ _ _ _ _ B2) Hwf1) as Hwf2.
  pose proof (broadcast_ok_live_keys _ _ _ _ _ B2) as Hk2.
  destruct (Post_tame fuel 0 DrawEvent (clock_tick 30 w2)) as (w3 & tr3 & -> & B3).
  { eapply tame_stable; [| |exact Ht2]; [done | apply heap_le_refl]. }
  rewrite bind_Ok.
  exists (clock_tick 30 w3),
    ((((( Broadcast 0 UpdateEvent :: tr1) ++ (Broadcast 0 DrawEvent :: tr2)) ++
        [Tick 30]) ++ (Broadcast 0 DrawEvent :: tr3)) ++ [Tick 30]).
  split; [done|]. split; [|split; [|split]].
  - exact (evolves_trans _ _ _ _ _
             (evolves_trans _ _ _ _ _
                (evolves_trans _ _ _ _ _
                   (evolves_trans _ _ _ _ _ (bo_evolves _ _ _ _ _ B1)
                      (bo_evolves _ _ _ _ _ B2))
                   (evolves_tick 30 w2)) (bo_evolves _ _ _ _ _ B3))
             (evolves_tick 30 w3)).
  - simpl. rewrite (bo_listeners _ _ _ _ _ B3). simpl.
    rewrite (bo_listeners _ _ _ _ _ B2). apply B1.
  - rewrite !own_app.
    rewrite (own_broadcast UpdateEvent tr1) by apply B1.
    rewrite (own_broadcast DrawEvent tr2) by apply B2.
    rewrite (own_broadcast DrawEvent tr3) by apply B3. done.
  - rewrite !observed_app.
    rewrite (observed_broadcast r 0 UpdateEvent tr1 w w1) by done.
    rewrite (observed_broadcast r 0 DrawEvent tr2 w1 w2) by (by rewrite ?Hk1).
    rewrite (observed_broadcast r 0 DrawEvent tr3 (clock_tick 30 w2) w3);
      [done | done | | done].
    change (live_keys (clock_tick 30 w2)) with (live_keys w2). by rewrite Hk2, Hk1.
Qed.

Lemma Run_tame iters fuel s r w w' :
  tame w → wf w → r ∈ live_keys w →
  Run iters (S (S fuel)) s w = Ok w' →
  ∃ tr n, log w' = log w ++ tr ∧ n ≤ iters ∧
          own tr = turns n ++ [Broadcast 0 QuitCleanupEvent] ∧
          observed r tr =
            mjoin (replicate n [UpdateEvent; DrawEvent; DrawEvent]) ++ [QuitCleanupEvent].
Proof.
  assert (Hend : ∀ w0, tame w0 → wf w0 → r ∈ live_keys w0 →
    Post (S (S fuel)) 0 QuitCleanupEvent w0 = Ok w' →
    ∃ tr n, log w' = log w0 ++ tr ∧ n ≤ 0 ∧
            own tr = turns n ++ [Broadcast 0 QuitCleanupEvent] ∧
            observed r tr =
              mjoin (replicate n [UpdateEvent; DrawEvent; DrawEvent]) ++
              [QuitCleanupEvent]).
  { intros w0 Ht Hwf Hr H.
    destruct (Post_tame fuel 0 QuitCleanupEvent w0 Ht) as (w1 & tr & H1 & B).
    rewrite H in H1. injection H1 as <-.
    exists (Broadcast 0 QuitCleanupEvent :: tr), 0.
    split; [apply B|]. split; [done|]. split.
    - apply own_broadcast, B.
    - by eapply observed_broadcast. }
  revert w. induction iters as [|k IH]; intros w Ht Hwf Hr.
  - simpl. destruct (default false (running s w)); [done|].
    intros H. destruct (Hend w Ht Hwf Hr H) as (tr & n & ?). by exists tr, n.
  - rewrite Run_S. destruct (default false (running s w)).
    + destruct (Run_body_tame fuel r w Ht Hwf Hr) as (w1 & tr1 & -> & E1 & L1 & O1 & R1).
      rewrite bind_Ok. intros H.
      destruct (IH w1) as (tr2 & n & Hl & Hn & O2 & R2); try done.
      * eapply tame_stable; [exact L1 | apply E1 | done].
      * by eapply wf_stable.
      * erewrite live_keys_stable; [done | done | apply E1].
      * exists (tr1 ++ tr2), (S n).
        split; [by rewrite Hl, (ev_log _ _ _ E1), app_assoc|]. split; [lia|].
        rewrite own_app, observed_app, O1, O2, R1, R2. unfold turns.
        change (mjoin (replicate (S n) turn)) with (turn ++ mjoin (replicate n turn)).
        by rewrite <- !app_assoc.
    + intros H. destruct (Hend w Ht Hwf Hr H) as (tr & n & Hl & Hn & Hrest).
      exists tr, n. split; [done|]. split; [lia | done].
Qed.

Lemma count_turns n :
  length (filter (λ e, e = UpdateEvent)
            (mjoin (replicate n [UpdateEvent; DrawEvent; DrawEvent]) ++
             [QuitCleanupEvent])) = n ∧
  length (filter (λ e, e = DrawEvent)
            (mjoin (replicate n [UpdateEvent; DrawEvent; DrawEvent]) ++
             [QuitCleanupEvent])) = 2 * n.
Proof.
  induction n as [|n [IH1 IH2]]; [done|].
  change (mjoin (replicate (S n) [UpdateEvent; DrawEvent; DrawEvent]))
    with ([UpdateEvent; DrawEvent; DrawEvent] ++
          mjoin (replicate n [UpdateEvent; DrawEvent; DrawEvent])).
  rewrite <- !app_assoc, !(filter_app _ [UpdateEvent; DrawEvent; DrawEvent]),
    !length_app, IH1, IH2.
  split; [done | simpl; lia].
Qed.

Lemma Run_turns_S n fuel w :
  Run_turns (S n) fuel w = let* w1 := Run_body fuel w in Run_turns n fuel w1.
Proof. done. Qed.

Lemma turns_until_S n fuel s w :
  turns_until (S n) fuel s w →
  running s w = Some true ∧
  ∃ w1, Run_body fuel w = Ok w1 ∧ turns_until n fuel s w1.
Proof.
  intros [Hi (wn & Hn & Hr)]. split; [apply (Hi 0 w); [lia | done]|].
  rewrite Run_turns_S in Hn.
  destruct (Run_body fuel w) as [w1| |] eqn:H1; [|done..].
  rewrite bind_Ok in Hn. exists w1. split; [done|]. split; [|by exists wn].
  intros i wi Hlt H. apply (Hi (S i) wi); [lia|].
  by rewrite Run_turns_S, H1, bind_Ok.
Qed.

(** A run that returns has made as many turns as the flag was found
    true. *)
Lemma Run_makes_turns iters fuel s w w' :
  Run iters fuel s w = Ok w' → ∃ n, n ≤ iters ∧ turns_until n fuel s w.
Proof.
  assert (Hstop : ∀ w0, running s w0 ≠ Some true → turns_until 0 fuel s w0).
  { intros w0 Hr. split; [intros i wi Hlt; lia | by exists w0]. }
  revert w. induction iters as [|k IH]; intros w H.
  - exists 0. split; [done|]. apply Hstop. intros Hr.
    simpl in H. by rewrite Hr in H.
  - destruct (decide (running s w = Some true)) as [Hr|Hr];
      [|exists 0; split; [lia | by apply Hstop]].
    rewrite Run_S, Hr in H. simpl in H.
    destruct (Run_body fuel w) as [w1| |] eqn:H1; [|done..].
    rewrite bind_Ok in H. destruct (IH w1 H) as (n & Hn & Hi & wn & Hwn & Hrn).
    exists (S n). split; [lia|]. split.
    + intros [|i] wi Hlt Hwi.
      * simpl in Hwi. by injection Hwi as <-.
      * rewrite Run_turns_S, H1, bind_Ok in Hwi. apply (Hi i wi); [lia | done].
    + exists wn. by rewrite Run_turns_S, H1, bind_Ok.
Qed.

(** The run among tame listeners, the number of its turns being known. *)
Lemma Run_tame_turns n k fuel s r w :
  tame w → wf w → r ∈ live_keys w → turns_until n (S (S fuel)) s w →
  ∃ w' tr, Run (n + k) (S (S fuel)) s w = Ok w' ∧ log w' = log w ++ tr ∧
           own tr = turns n ++ [Broadcast 0 QuitCleanupEvent] ∧
           observed r tr =
             mjoin (replicate n [UpdateEvent; DrawEvent; DrawEvent]) ++
             [QuitCleanupEvent].
Proof.
  revert w. induction n as [|n IH]; intros w Ht Hwf Hr Hu.
  - destruct Hu as [_ (w0 & H0 & Hf)]. simpl in H0. injection H0 as <-.
    rewrite (Run_stopped _ _ _ _ Hf).
    destruct (Post_tame fuel 0 QuitCleanupEvent w Ht) as (w1 & tr & H1 & B).
    exists w1, (Broadcast 0 QuitCleanupEvent :: tr).
    split; [done|]. split; [apply B|]. split.
    + apply own_broadcast, B.
    + by eapply observed_broadcast.
  - apply turns_until_S in Hu as (Hf & w1 & H1 & Hu).
    change (S n + k) with (S (n + k)). rewrite Run_S, Hf. simpl.
    destruct (Run_body_tame fuel r w Ht Hwf Hr) as (w1' & tr1 & H1' & E1 & L1 & O1 & R1).
    rewrite H1 in H1'. injection H1' as <-. rewrite H1, bind_Ok.
    destruct (IH w1) as (w' & tr2 & H & Hl & O2 & R2); try done.
    + eapply tame_stable; [exact L1 | apply E1 | done].
    + by eapply wf_stable.
    + erewrite live_keys_stable; [done | done | apply E1].
    + exists w', (tr1 ++ tr2). split; [done|].
      split; [by rewrite Hl, (ev_log _ _ _ E1), app_assoc|].
      rewrite own_app, observed_app, O1, O2, R1, R2. unfold turns.
      change (mjoin (replicate (S n) turn)) with (turn ++ mjoin (replicate n turn)).
      done.
Qed.

(** C2.  Among tame listeners, one turn of the loop returns; the loop
    itself has broadcast an update, broadcast a draw, advanced the clock,
    broadcast a second draw and advanced the clock again, in this order,
    and a registered listener has received the update and the two draws.
    When the flag is true each of the first [n] times the loop tests it and
    is not true the next time, the run returns, the loop has made exactly
    [n] turns and then broadcast the cleanup, and a registered listener has
    received exactly [n] updates and [2 n] draws from the broadcasts of
    the loop. *)
Theorem Run_two_draws_per_update (n k fuel s r : nat) (w : World) :
  tame w → wf w → r ∈ live_keys w → turns_until n (S (S fuel)) s w →
  (∃ w1 tr1, Run_body (S (S fuel)) w = Ok w1 ∧ log w1 = log w ++ tr1 ∧
             own tr1 = [Broadcast 0 UpdateEvent; Broadcast 0 DrawEvent; Tick 30;
                        Broadcast 0 DrawEvent; Tick 30] ∧
             observed r tr1 = [UpdateEvent; DrawEvent; DrawEvent]) ∧
  (∃ w' tr, Run (n + k) (S (S fuel)) s w = Ok w' ∧ log w' = log w ++ tr ∧
            own tr = turns n ++ [Broadcast 0 QuitCleanupEvent] ∧
            length (filter (λ e, e = UpdateEvent) (observed r tr)) = n ∧
            length (filter (λ e, e = DrawEvent) (observed r tr)) = 2 * n).
Proof.
  intros Ht Hwf Hr Hu. split.
  - destruct (Run_body_tame fuel r w Ht Hwf Hr) as (w1 & tr1 & H & E & _ & O & R).
    exists w1, tr1. split; [done|]. split; [apply E | done].
  - destruct (Run_tame_turns n k fuel s r w Ht Hwf Hr Hu) as (w' & tr & H & Hl & O & R).
    exists w', tr. split; [done|]. split; [done|]. split; [done|].
    rewrite R. apply count_turns.
Qed.

Lemma demo_live_keys q : live_keys (demo q) = [0; 1; 2; 3].
Proof. done. Qed.

(** With the input [five_turns] the flag of the tick controller of [main]
    is true the first five times the loop tests it, and false the sixth. *)
Lemma Run_two_draws_per_update_witness :
  (∃ w1 tr1, Run_body 2 (demo five_turns) = Ok w1 ∧
             log w1 = log (demo five_turns) ++ tr1 ∧
             own tr1 = [Broadcast 0 UpdateEvent; Broadcast 0 DrawEvent; Tick 30;
                        Broadcast 0 DrawEvent; Tick 30] ∧
             observed 3 tr1 = [UpdateEvent; DrawEvent; DrawEvent]) ∧
  (∃ w' tr, Run 5 2 1 (demo five_turns) = Ok w' ∧
            log w' = log (demo five_turns) ++ tr ∧
            own tr = turns 5 ++ [Broadcast 0 QuitCleanupEvent] ∧
            length (filter (λ e, e = UpdateEvent) (observed 3 tr)) = 5 ∧
            length (filter (λ e, e = DrawEvent) (observed 3 tr)) = 10).
Proof.
  apply (Run_two_draws_per_update 5 0 0 1 3 (demo five_turns)).
  - apply demo_tame.
  - apply demo_wf.
  - rewrite demo_live_keys. by apply (bool_decide_unpack _).
  - split.
    + intros i wi Hi H.
      destruct i as [|[|[|[|[|i]]]]]; [| | | | |lia];
        vm_compute in H; injection H as <-; reflexivity.
    + eexists. split; [vm_compute; reflexivity|]. vm_compute. discriminate.
Defined.

(** The scenario of the specification: five updates and ten draws. *)
Example Run_five_turns :
  ∃ w', Run 5 2 1 (demo five_turns) = Ok w' ∧
        length (filter (λ e, e = UpdateEvent) (observed 3 (log w'))) = 5 ∧
        length (filter (λ e, e = DrawEvent) (observed 3 (log w'))) = 10 ∧
        own (log w') = turns 5 ++ [Broadcast 0 QuitCleanupEvent].
Proof. eexists. split; [vm_compute; reflexivity|]. by vm_compute. Qed.

Lemma filter_own_cleanup tr :
  filter (λ i, i = Broadcast 0 QuitCleanupEvent) (own tr) =
  filter (λ i, i = Broadcast 0 QuitCleanupEvent) tr.
Proof.
  unfold own. induction tr as [|i tr IH]; [done|]. rewrite !filter_cons.
  destruct (decide (i = Broadcast 0 QuitCleanupEvent)) as [->|Hne].
  - simpl. rewrite filter_cons, decide_True by done. by rewrite IH.
  - destruct (is_own i); simpl; [|done].
    by rewrite filter_cons, decide_False by done.
Qed.

Lemma no_cleanup_in_turns n :
  filter (λ i, i = Broadcast 0 QuitCleanupEvent) (turns n) = [].
Proof.
  induction n as [|n IH]; [done|]. unfold turns in *.
  change (mjoin (replicate (S n) turn)) with (turn ++ mjoin (replicate n turn)).
  by rewrite filter_app, IH.
Qed.

(** C3.  A run that returns has made whole turns, each ending with its
    second draw and clock tick, and after the last of them the loop has
    broadcast [QuitCleanupEvent]: this is the last thing the loop did, and
    it did it once.  The number of turns is any number, none included. *)
Theorem Run_cleanup_once (iters fuel s : nat) (w w' : World) :
  Run iters fuel s w = Ok w' →
  ∃ n tr, log w' = log w ++ tr ∧
          own tr = turns n ++ [Broadcast 0 QuitCleanupEvent] ∧
          length (filter (λ i, i = Broadcast 0 QuitCleanupEvent) tr) = 1.
Proof.
  intros (tr & n & E & _ & O)%Run_own. exists n, tr.
  split; [apply E|]. split; [done|].
  by rewrite <- filter_own_cleanup, O, filter_app, no_cleanup_in_turns.
Qed.

Lemma Run_cleanup_once_witness :
  ∃ w', Run 1 2 1 (demo [[QUIT]]) = Ok w' ∧
  ∃ n tr, log w' = log (demo [[QUIT]]) ++ tr ∧
          own tr = turns n ++ [Broadcast 0 QuitCleanupEvent] ∧
          length (filter (λ i, i = Broadcast 0 QuitCleanupEvent) tr) = 1.
Proof.
  eexists. split; [vm_compute; reflexivity|].
  apply (Run_cleanup_once 1 2 1 (demo [[QUIT]])). vm_compute. reflexivity.
Defined.

Lemma running_false_of w w' s :
  heap_le (heap w) (heap w') → is_Some (running s w) → running s w' ≠ Some true →
  running s w' = Some false.
Proof.
  intros Hh [b Hb] Hn.
  destruct (heap_le_running_some _ _ _ _ Hh Hb) as [[|] Hb']; done.
Qed.

(** C4.  Among tame listeners, let the loop be running and let a
    [QuitEvent] reach the tick controller while the update of a turn is
    broadcast.  The flag is false when that broadcast returns, and the run
    returns: the loop has finished the turn (the draw, the clock tick, the
    second draw, the second clock tick) and has then broadcast the cleanup
    without beginning another turn. *)
Theorem Quit_finishes_the_turn (n fuel s : nat) (w w1 : World) (tr1 : list LogItem) :
  tame w → running s w = Some true →
  Post (S (S fuel)) 0 UpdateEvent w = Ok w1 → log w1 = log w ++ tr1 →
  (∃ d, Notified d s QuitEvent ∈ tr1) →
  running s w1 = Some false ∧
  ∃ w' tr, Run (S n) (S (S fuel)) s w = Ok w' ∧ log w' = log w ++ tr ∧
           own tr = [Broadcast 0 UpdateEvent; Broadcast 0 DrawEvent; Tick 30;
                     Broadcast 0 DrawEvent; Tick 30; Broadcast 0 QuitCleanupEvent].
Proof.
  intros Ht Hrun H1 Hl1 [d Hd].
  destruct (Post_tame fuel 0 UpdateEvent w Ht) as (w1' & tr & H1' & B1).
  rewrite H1 in H1'. injection H1' as <-.
  pose proof (bo_evolves _ _ _ _ _ B1) as E1.
  rewrite (ev_log _ _ _ E1) in Hl1. apply app_inv_head in Hl1. subst tr1.
  assert (Hf1 : running s w1 = Some false).
  { eapply running_false_of; [apply E1 | by eexists | by eapply (ev_quit _ _ _ E1)]. }
  split; [done|].
  pose proof (broadcast_ok_tame _ _ _ _ _ B1 Ht) as Ht1.
  destruct (Post_tame fuel 0 DrawEvent w1 Ht1) as (w2 & tr2 & H2 & B2).
  pose proof (broadcast_ok_tame _ _ _ _ _ B2 Ht1) as Ht2.
  destruct (Post_tame fuel 0 DrawEvent (clock_tick 30 w2)) as (w3 & tr3 & H3 & B3).
  { eapply tame_stable; [| |exact Ht2]; [done | apply heap_le_refl]. }
  destruct (Post_tame fuel 0 QuitCleanupEvent (clock_tick 30 w3)) as (w4 & tr4 & H4 & B4).
  { eapply tame_stable; [| |exact (broadcast_ok_tame _ _ _ _ _ B3 ltac:(
      eapply tame_stable; [| |exact Ht2]; [done | apply heap_le_refl]))];
      [done | apply heap_le_refl]. }
  pose proof (evolves_trans _ _ _ _ _
               (evolves_trans _ _ _ _ _
                  (evolves_trans _ _ _ _ _ (bo_evolves _ _ _ _ _ B2)
                     (evolves_tick 30 w2)) (bo_evolves _ _ _ _ _ B3))
               (evolves_tick 30 w3)) as E2.
  exists w4,
    ((Broadcast 0 UpdateEvent :: tr) ++
     ((((Broadcast 0 DrawEvent :: tr2) ++ [Tick 30]) ++
       (Broadcast 0 DrawEvent :: tr3)) ++ [Tick 30]) ++
     (Broadcast 0 QuitCleanupEvent :: tr4)).
  split; [|split].
  - rewrite Run_S, Hrun. simpl. unfold Run_body.
    rewrite H1, bind_Ok, H2, bind_Ok, H3, !bind_Ok.
    rewrite Run_stopped; [done|].
    eapply not_running_stable; [apply E2|]. by rewrite Hf1.
  - rewrite (ev_log _ _ _ (bo_evolves _ _ _ _ _ B4)), (ev_log _ _ _ E2),
      (ev_log _ _ _ E1). by rewrite <- !app_assoc.
  - rewrite !own_app.
    rewrite (own_broadcast UpdateEvent tr) by apply B1.
    rewrite (own_broadcast DrawEvent tr2) by apply B2.
    rewrite (own_broadcast DrawEvent tr3) by apply B3.
    rewrite (own_broadcast QuitCleanupEvent tr4) by apply B4. done.
Qed.

Lemma Quit_finishes_the_turn_witness :
  ∃ w1 tr1,
    Post 2 0 UpdateEvent (demo [[QUIT]]) = Ok w1 ∧
    log w1 = log (demo [[QUIT]]) ++ tr1 ∧
    (∃ d, Notified d 1 QuitEvent ∈ tr1) ∧
    running 1 w1 = Some false ∧
    ∃ w' tr, Run 1 2 1 (demo [[QUIT]]) = Ok w' ∧ log w' = log (demo [[QUIT]]) ++ tr ∧
             own tr = [Broadcast 0 UpdateEvent; Broadcast 0 DrawEvent; Tick 30;
                       Broadcast 0 DrawEvent; Tick 30; Broadcast 0 QuitCleanupEvent].
Proof.
  assert (H1 : ∃ w1, Post 2 0 UpdateEvent (demo [[QUIT]]) = Ok w1 ∧
                     log w1 = log (demo [[QUIT]]) ++
                       [Broadcast 0 UpdateEvent; Notified 0 0 UpdateEvent;
                        Broadcast 1 QuitEvent; Notified 1 0 QuitEvent;
                        Notified 1 1 QuitEvent; Notified 1 2 QuitEvent;
                        Notified 1 3 QuitEvent; Notified 0 1 UpdateEvent;
                        Notified 0 2 UpdateEvent; Notified 0 3 UpdateEvent]).
  { eexists. split; vm_compute; reflexivity. }
  destruct H1 as (w1 & H1 & Hl1).
  assert (Hd : ∃ d, Notified d 1 QuitEvent ∈
                 [Broadcast 0 UpdateEvent; Notified 0 0 UpdateEvent;
                  Broadcast 1 QuitEvent; Notified 1 0 QuitEvent;
                  Notified 1 1 QuitEvent; Notified 1 2 QuitEvent;
                  Notified 1 3 QuitEvent; Notified 0 1 UpdateEvent;
                  Notified 0 2 UpdateEvent; Notified 0 3 UpdateEvent]).
  { exists 1. by apply (bool_decide_unpack _). }
  exists w1. eexists. split; [exact H1|]. split; [exact Hl1|]. split; [exact Hd|].
  apply (Quit_finishes_the_turn 0 0 1 (demo [[QUIT]]) w1 _ (demo_tame _) eq_refl H1 Hl1 Hd).
Defined.

Lemma trace_unique w w' tr tr' :
  log w' = log w ++ tr → log w' = log w ++ tr' → tr' = tr.
Proof. intros -> H. by apply app_inv_head in H. Qed.

Lemma evolves_flag tr w w' s :
  evolves tr w w' →
  (running s w = Some false → running s w' = Some false) ∧
  (running s w = Some true → running s w' = Some false →
   ∃ d, Notified d s QuitEvent ∈ tr).
Proof.
  intros E. split; [apply heap_le_running, E | apply E].
Qed.

(** C8.  The flag of a tick controller is true when the controller has
    been constructed, and it is true when [main] calls [Run].  [Notify]
    clears it when the event is a [QuitEvent] and leaves it alone
    otherwise; registering and unregistering leave it alone.  Through a
    broadcast and through a run, however they end, a flag that is false
    stays false, and a flag that has gone from true to false has done so
    because a [QuitEvent] was delivered to the controller.  A run that
    starts with the flag false does not turn: it only broadcasts the
    cleanup. *)
Theorem running_is_cleared_by_Quit_only
    (iters fuel d s : nat) (e : Event) (w : World) (q : list (list pygame_event)) :
  running (fst (TickController_init w)) (snd (TickController_init w)) = Some true ∧
  running (fst (main_setup q)) (snd (main_setup q)) = Some true ∧
  (∀ post b, running s w = Some b →
     ∃ w', Notify post s e w = Ok w' ∧
           running s w' = Some (if decide (e = QuitEvent) then false else b)) ∧
  (∀ l, running s (RegisterListener l w) = running s w ∧
        running s (UnregisterListener l w) = running s w) ∧
  (∀ w' tr, final (Post fuel d e w) = Some w' → log w' = log w ++ tr →
     (running s w = Some false → running s w' = Some false) ∧
     (running s w = Some true → running s w' = Some false →
      ∃ d', Notified d' s QuitEvent ∈ tr)) ∧
  (∀ w' tr, final (Run iters fuel s w) = Some w' → log w' = log w ++ tr →
     (running s w = Some false → running s w' = Some false) ∧
     (running s w = Some true → running s w' = Some false →
      ∃ d', Notified d' s QuitEvent ∈ tr)) ∧
  (running s w = Some false → Run iters fuel s w = Post fuel 0 QuitCleanupEvent w).
Proof.
  split; [|split; [|split; [|split; [|split; [|split]]]]].
  - unfold TickController_init, alloc, RegisterListener, running. simpl.
    case_decide; simpl; by rewrite lookup_insert_eq.
  - done.
  - intros post b [n Hn]%running_Some. unfold Notify. rewrite Hn. simpl.
    unfold TickController_Notify. case_decide.
    + eexists. split; [done|]. unfold running. simpl.
      by rewrite lookup_alter_eq, Hn.
    + eexists. split; [done|]. apply running_Some. by exists n.
  - intros l. unfold RegisterListener, UnregisterListener.
    split; by case_decide.
  - intros w' tr (tr' & E & _)%Post_evolves Hl.
    rewrite (trace_unique _ _ _ _ (ev_log _ _ _ E) Hl). by apply evolves_flag.
  - intros w' tr (tr' & E)%Run_final Hl.
    rewrite (trace_unique _ _ _ _ (ev_log _ _ _ E) Hl). by apply evolves_flag.
  - intros Hf. apply Run_stopped. by rewrite Hf.
Qed.

(** ** A handler that posts while an update is broadcast *)

Section Reentry.
Context (post : Event → World → Outcome) (d : nat).

(** The [QuitEvent] that a handler posts is broadcast one level down, to
    the end. *)
Hypothesis Hpost : ∀ w, tame w →
  ∃ w' tr, post QuitEvent w = Ok w' ∧ calm d tr w w' ∧ quit_done d tr w w' ∧
           Forall (item_depth_ge (S d)) tr ∧ Broadcast (S d) QuitEvent ∈ tr.

Lemma post_quit_tame :
  UpdateEvent ≠ QuitEvent → ∀ w, tame w →
  ∃ w' tr, post QuitEvent w = Ok w' ∧ calm d tr w w' ∧ quit_done d tr w w' ∧
           Forall (item_depth_ge (S d)) tr.
Proof using Hpost.
  intros _ w Ht. destruct (Hpost w Ht) as (w' & tr & H & C & Q & F & _).
  by exists w', tr.
Qed.

Lemma poll_posts batch w :
  QUIT ∈ batch → tame w →
  ∃ w' tr, poll post batch w = Ok w' ∧ calm d tr w w' ∧
           Forall (item_depth_ge (S d)) tr ∧ Broadcast (S d) QuitEvent ∈ tr.
Proof using Hpost.
  revert w. induction batch as [|ev rest IH]; intros w Hin Ht;
    [by apply elem_of_nil in Hin|].
  simpl. destruct ev as [|k]; simpl.
  - destruct (Hpost w Ht) as (w1 & tr1 & -> & C1 & _ & F1 & B1). simpl.
    destruct (poll_tame post d UpdateEvent post_quit_tame rest w1)
      as (w2 & tr2 & -> & C2 & F2); [done | by eapply calm_tame |].
    exists w2, (tr1 ++ tr2). split; [done|]. split; [by eapply calm_trans|].
    split; [by apply Forall_app|]. apply elem_of_app. by left.
  - apply elem_of_cons in Hin as [[=]|Hin]. by apply IH.
Qed.

Lemma run_script_posts cs w :
  CPost QuitEvent ∈ cs → Forall (tame_cmd (listeners w) UpdateEvent) cs → tame w →
  ∃ w' tr, run_script post cs w = Ok w' ∧ calm d tr w w' ∧
           Forall (item_depth_ge (S d)) tr ∧ Broadcast (S d) QuitEvent ∈ tr.
Proof using Hpost.
  revert w. induction cs as [|c cs IH]; intros w Hin Hcs Ht;
    [by apply elem_of_nil in Hin|].
  apply Forall_cons in Hcs as [Hc Hcs]. simpl.
  apply elem_of_cons in Hin as [<-|Hin].
  - simpl. destruct (Hpost w Ht) as (w1 & tr1 & -> & C1 & _ & F1 & B1). simpl.
    destruct (run_script_tame post d UpdateEvent post_quit_tame cs w1)
      as (w2 & tr2 & -> & C2 & F2).
    + by rewrite (cm_listeners _ _ _ _ C1).
    + by eapply calm_tame.
    + exists w2, (tr1 ++ tr2). split; [done|]. split; [by eapply calm_trans|].
      split; [by apply Forall_app|]. apply elem_of_app. by left.
  - destruct (exec_tame post d UpdateEvent post_quit_tame c w Hc Ht)
      as (w1 & tr1 & -> & C1 & F1). simpl.
    destruct (IH w1) as (w2 & tr2 & -> & C2 & F2 & B2).
    + done.
    + by rewrite (cm_listeners _ _ _ _ C1).
    + by eapply calm_tame.
    + exists w2, (tr1 ++ tr2). split; [done|]. split; [by eapply calm_trans|].
      split; [by apply Forall_app|]. apply elem_of_app. by right.
Qed.

(** The handler of [p] posts when it is called now. *)
Lemma deliver_posts p w :
  tame w → Some p ∈ listeners w →
  match obj <$> heap w !! p with
  | Some (Scripted n script) => CPost QuitEvent ∈ script n UpdateEvent
  | Some PygameController => QUIT ∈ hd [] (pygame_queue w)
  | _ => False
  end →
  ∃ w' tr, deliver post d UpdateEvent p w = Ok w' ∧
           calm d (Notified d p UpdateEvent :: tr) w w' ∧
           Forall (item_depth_ge (S d)) tr ∧ Broadcast (S d) QuitEvent ∈ tr.
Proof using Hpost.
  intros Ht Hin Hp. destruct (heap w !! p) as [[n o]|] eqn:Hl; [|done].
  simpl in Hp.
  assert (Hal : is_Some (heap w !! p)) by (rewrite Hl; by eexists).
  assert (Ht0 : tame (add_log (Notified d p UpdateEvent) w)).
  { eapply tame_stable; [| |exact Ht]; [done | apply heap_le_refl]. }
  unfold deliver, Notify.
  change (heap (add_log (Notified d p UpdateEvent) w)) with (heap w).
  rewrite Hl. simpl.
  destruct o as [| |b|k script]; [done| |done|].
  - assert (Hr : running p w = None) by (unfold running; by rewrite Hl).
    unfold PygameController_Notify. rewrite decide_True by done.
    destruct (poll_posts
                (hd [] (pygame_queue (add_log (Notified d p UpdateEvent) w)))
                (set_pygame_queue
                   (tl (pygame_queue (add_log (Notified d p UpdateEvent) w)))
                   (add_log (Notified d p UpdateEvent) w)))
      as (w' & tr & -> & C & F & B); [done | done |].
    exists w', tr. split; [done|]. split; [|done].
    apply (calm_trans d [_] tr _ _ _ (calm_notified d UpdateEvent p w Hin Hal Hr)).
    eapply (calm_trans d [] tr); [|exact C]. by apply calm_silent.
  - assert (Hr : running p w = None) by (unfold running; by rewrite Hl).
    destruct (run_script_posts (script k UpdateEvent)
                (set_obj p (Scripted (S k) script)
                   (add_log (Notified d p UpdateEvent) w)))
      as (w' & tr & -> & C & F & B).
    + done.
    + apply Forall_forall. intros c Hc. by apply (Ht p _ Hin Hl k UpdateEvent c).
    + eapply tame_stable; [| |exact Ht0]; [done|].
      by eapply (heap_le_set_obj p _ (add_log (Notified d p UpdateEvent) w)).
    + exists w', tr. split; [done|]. split; [|done].
      apply (calm_trans d [_] tr _ _ _ (calm_notified d UpdateEvent p w Hin Hal Hr)).
      eapply (calm_trans d [] tr); [|exact C]. split; [| done | |left; constructor].
      * by eapply (evolves_bump p k script (add_log _ w)).
      * intros d' l' e' H. by apply elem_of_nil in H.
Qed.

(** The loop of [Post] reaches [p], whose handler posts. *)
Lemma for_keys_posts len pos p w :
  tame w → length (omap id (drop pos (listeners w))) ≤ len →
  p ∈ filter (λ l, alive l w) (omap id (drop pos (listeners w))) →
  match obj <$> heap w !! p with
  | Some (Scripted _ script) => ∀ n, CPost QuitEvent ∈ script n UpdateEvent
  | Some PygameController =>
      QUIT ∈ hd [] (pygame_queue w) ∧
      head (filter (λ l, alive l w) (omap id (drop pos (listeners w)))) = Some p
  | _ => False
  end →
  ∃ w' tr, for_keys (deliver post d UpdateEvent) len pos (dict_used w) w = Ok w' ∧
           calm d tr w w' ∧
           Notified d p UpdateEvent ∈ tr ∧ Broadcast (S d) QuitEvent ∈ tr.
Proof using Hpost.
  revert pos w. induction len as [|len IH]; intros pos w Ht Hlen Hp Hq; simpl;
    rewrite decide_True by done;
    destruct (next_entry pos (listeners w)) as [[i l]|] eqn:Hn.
  - apply next_entry_Some in Hn as [_ Hn]. rewrite Hn in Hlen. simpl in Hlen. lia.
  - apply next_entry_None in Hn. rewrite Hn in Hp. by apply elem_of_nil in Hp.
  - apply next_entry_Some in Hn as [Hin Hn]. rewrite Hn in *. simpl in Hlen.
    rewrite filter_cons in Hp, Hq. destruct (alive l w) eqn:Hal.
    + rewrite decide_True in Hp, Hq by done.
      apply bool_decide_eq_true in Hal.
      destruct (decide (p = l)) as [->|Hne].
      * destruct (deliver_posts l w Ht Hin) as (w1 & tr1 & -> & C1 & F1 & B1).
        { destruct (heap w !! l) as [[n o]|]; [|done]. simpl in *.
          destruct o as [| |b|k script]; [done | by destruct Hq | done | done]. }
        simpl. pose proof (cm_listeners _ _ _ _ C1) as L1.
        destruct (for_keys_tame post d UpdateEvent post_quit_tame len (S i) w1)
          as (w2 & tr2 & H2 & C2 & _).
        { by eapply calm_tame. }
        { rewrite L1. lia. }
        replace (dict_used w) with (dict_used w1)
          by (unfold dict_used, keys; by rewrite L1).
        rewrite H2. exists w2, ((Notified d l UpdateEvent :: tr1) ++ tr2).
        split; [done|]. split; [by eapply calm_trans|]. split.
        -- apply elem_of_app. left. apply elem_of_cons. by left.
        -- apply elem_of_app. left. apply elem_of_cons. by right.
      * apply elem_of_cons in Hp as [Hp|Hp]; [done|].
        destruct (deliver_tame post d UpdateEvent post_quit_tame l w Ht Hin Hal)
          as (w1 & tr1 & -> & C1 & F1 & _).
        simpl. pose proof (cm_listeners _ _ _ _ C1) as L1.
        assert (Hlive : ∀ l', alive l' w1 ↔ alive l' w).
        { intros l'. unfold alive. rewrite !bool_decide_spec. symmetry.
          apply heap_le_alive, C1. }
        destruct (IH (S i) w1) as (w2 & tr2 & H2 & C2 & N2 & B2).
        { by eapply calm_tame. }
        { rewrite L1. lia. }
        { rewrite L1. by rewrite (list_filter_iff _ _ _ Hlive). }
        { destruct (heap w !! p) as [[n o]|] eqn:Hc; [|done].
          destruct (heap_le_lookup _ _ _ _ (ev_heap _ _ _ (cm_evolves _ _ _ _ C1)) Hc)
            as (c' & Hc' & _ & Ho).
          rewrite Hc'. simpl in *.
          destruct o as [| |b|k script]; [done | | done |].
          - destruct Hq as [_ Hq]. simpl in Hq. by injection Hq as ->.
          - destruct (obj c') as [| |b'|k' script']; [done..|]. simpl in Ho.
            by subst script'. }
        replace (dict_used w) with (dict_used w1)
          by (unfold dict_used, keys; by rewrite L1).
        rewrite H2. exists w2, ((Notified d l UpdateEvent :: tr1) ++ tr2).
        split; [done|]. split; [by eapply calm_trans|]. split.
        -- apply elem_of_app. by right.
        -- apply elem_of_app. by right.
    + rewrite decide_False in Hp, Hq by (by intros []).
      destruct (IH (S i) w Ht) as (w2 & tr2 & H2 & C2 & N2 & B2); [lia | done | done |].
      by exists w2, tr2.
  - apply next_entry_None in Hn. rewrite Hn in Hp. by apply elem_of_nil in Hp.
Qed.
End Reentry.

(** A [QuitEvent] posted by a handler, seen from the broadcast that called
    the handler. *)
Lemma Post_quit_nested fuel d w :
  tame w →
  ∃ w' tr, Post (S fuel) (S d) QuitEvent w = Ok w' ∧ calm d tr w w' ∧
           quit_done d tr w w' ∧ Forall (item_depth_ge (S d)) tr ∧
           Broadcast (S d) QuitEvent ∈ tr.
Proof.
  intros Ht. destruct (Post_tame_quit fuel (S d) w Ht) as (w' & tr & H & B).
  exists w', (Broadcast (S d) QuitEvent :: tr). split; [done|].
  assert (Hq : quit_done d (Broadcast (S d) QuitEvent :: tr) w w').
  { split; [by apply B|]. intros l Hl. apply elem_of_cons. right.
    apply elem_of_direct. rewrite (bo_direct _ _ _ _ _ B).
    apply list_elem_of_fmap. by exists l. }
  split; [|split; [done|split]].
  - split; [apply B | apply B | | by right].
    intros d' l e' [[=]|Hin]%elem_of_cons. by eapply B.
  - constructor; [simpl; lia|].
    eapply Forall_impl; [apply B|]. apply post_item_depth_ge.
  - apply elem_of_cons. by left.
Qed.

(** The broadcast of an update calls the handler of [p], and the handler
    posts. *)
Lemma Post_update_posts fuel d p w :
  tame w → p ∈ live_keys w → posts_quit p w →
  ∃ w' tr, Post (S (S fuel)) d UpdateEvent w = Ok w' ∧
           log w' = log w ++ Broadcast d UpdateEvent :: tr ∧
           Notified d p UpdateEvent ∈ tr ∧ Broadcast (S d) QuitEvent ∈ tr.
Proof.
  intros Ht Hp Hq. rewrite Post_S.
  destruct (for_keys_posts (Post (S fuel) (S d)) d (Post_quit_nested fuel d)
              (dict_used (add_log (Broadcast d UpdateEvent) w)) 0 p
              (add_log (Broadcast d UpdateEvent) w))
    as (w' & tr & H & C & N & B).
  - eapply tame_stable; [| |exact Ht]; [done | apply heap_le_refl].
  - by rewrite drop_0.
  - rewrite drop_0. exact Hp.
  - rewrite drop_0. exact Hq.
  - exists w', tr. split; [done|]. split; [|done].
    rewrite (ev_log _ _ _ (cm_evolves _ _ _ _ C)). simpl. by rewrite <- app_assoc.
Qed.

(** Among tame listeners the broadcast of an update returns; if a handler
    posted a [QuitEvent] while it ran, the nested broadcast has reached
    every live listener and has cleared the flag by then. *)
Lemma Post_update_nested fuel d s w :
  tame w → Some s ∈ listeners w → is_Some (running s w) →
  ∃ w' tr, Post (S (S fuel)) d UpdateEvent w = Ok w' ∧
           log w' = log w ++ Broadcast d UpdateEvent :: tr ∧
           (Broadcast (S d) QuitEvent ∈ tr →
            running s w' = Some false ∧
            ∀ l, l ∈ live_keys w → Notified (S d) l QuitEvent ∈ tr).
Proof.
  intros Ht Hs Hr. destruct (Post_tame fuel d UpdateEvent w Ht) as (w' & tr & H & B).
  exists w', tr. split; [done|]. split; [apply B|]. intros Hq.
  destruct (bo_nested _ _ _ _ _ B) as [Hno|[Hst Hall]].
  - eapply Forall_forall in Hno; [|exact Hq]. by destruct Hno.
  - split; [|done]. eapply running_false_of; [apply B | done |].
    apply Hst. by rewrite (bo_listeners _ _ _ _ _ B).
Qed.

(** C10.  Among tame listeners, let [p] be registered and alive, and let
    its handler post a [QuitEvent] when it is notified of an update.  The
    broadcast of an update returns; it has called the handler of [p], the
    [QuitEvent] has been broadcast one level down while the broadcast of
    the update was still running, that nested broadcast has called
    [Notify] with the [QuitEvent] on every listener that is registered and
    alive, and the flag of every registered tick controller is false when
    the broadcast of the update returns. *)
Theorem Post_is_reentrant (fuel d s p : nat) (w : World) :
  tame w → Some s ∈ listeners w → is_Some (running s w) →
  p ∈ live_keys w → posts_quit p w →
  ∃ w' tr, Post (S (S fuel)) d UpdateEvent w = Ok w' ∧
           log w' = log w ++ Broadcast d UpdateEvent :: tr ∧
           Notified d p UpdateEvent ∈ tr ∧
           Broadcast (S d) QuitEvent ∈ tr ∧
           (∀ l, l ∈ live_keys w → Notified (S d) l QuitEvent ∈ tr) ∧
           running s w' = Some false.
Proof.
  intros Ht Hs Hr Hp Hq.
  destruct (Post_update_posts fuel d p w Ht Hp Hq) as (w' & tr & H & Hl & N & B).
  destruct (Post_update_nested fuel d s w Ht Hs Hr) as (w2 & tr2 & H2 & Hl2 & Hn).
  rewrite H in H2. injection H2 as <-.
  pose proof (trace_unique _ _ _ _ Hl Hl2) as Heq.
  apply (inj (cons _)) in Heq. subst tr2.
  destruct (Hn B) as [Hf Hall].
  exists w', tr. by repeat split.
Qed.

(** The controller of [main] is the first listener of the registry, and
    the first poll of pygame finds the window closed. *)
Lemma Post_is_reentrant_witness :
  ∃ w' tr, Post 2 0 UpdateEvent (demo [[QUIT]]) = Ok w' ∧
           log w' = log (demo [[QUIT]]) ++ Broadcast 0 UpdateEvent :: tr ∧
           Notified 0 0 UpdateEvent ∈ tr ∧
           Broadcast 1 QuitEvent ∈ tr ∧
           (∀ l, l ∈ live_keys (demo [[QUIT]]) → Notified 1 l QuitEvent ∈ tr) ∧
           running 1 w' = Some false.
Proof.
  apply (Post_is_reentrant 0 0 1 0 (demo [[QUIT]])).
  - apply demo_tame.
  - by apply (bool_decide_unpack _).
  - by eexists.
  - rewrite demo_live_keys. by apply (bool_decide_unpack _).
  - split; [by apply (bool_decide_unpack _) | reflexivity].
Defined.

(** The window is closed during the first poll: the [QuitEvent] that the
    controller posts is broadcast inside the broadcast of the update. *)
Example nested_quit_demo :
  ∃ w', Post 2 0 UpdateEvent (demo [[QUIT]]) = Ok w' ∧
        running 1 (demo [[QUIT]]) = Some true ∧ running 1 w' = Some false ∧
        log w' = log (demo [[QUIT]]) ++
          [Broadcast 0 UpdateEvent; Notified 0 0 UpdateEvent;
           Broadcast 1 QuitEvent; Notified 1 0 QuitEvent; Notified 1 1 QuitEvent;
           Notified 1 2 QuitEvent; Notified 1 3 QuitEvent;
           Notified 0 1 UpdateEvent; Notified 0 2 UpdateEvent;
           Notified 0 3 UpdateEvent].
Proof. eexists. split; [vm_compute; reflexivity|]. by vm_compute. Qed.


(** ** The program returns when the window is closed *)

Lemma main_setup_studio q : snd (main_setup q) = studio true q [Repaint 2].
Proof. vm_compute. reflexivity. Qed.

Lemma studio_quit f d b q lg :
  ∃ lg', Post (S f) d QuitEvent (studio b q lg) = Ok (studio false q lg').
Proof. eexists. destruct b; vm_compute; reflexivity. Qed.

Lemma studio_other f b q lg e :
  e = DrawEvent ∨ e = QuitCleanupEvent →
  ∃ lg', Post (S f) 0 e (studio b q lg) = Ok (studio b q lg').
Proof. intros [-> | ->]; eexists; destruct b; vm_compute; reflexivity. Qed.

Lemma studio_poll f b q lg batch :
  ∃ lg', poll (Post (S f) 1) batch (studio b q lg) =
         Ok (studio (b && noquit batch) q lg').
Proof.
  revert b lg. induction batch as [|ev rest IH]; intros b lg.
  - exists lg. simpl. by rewrite andb_true_r.
  - destruct ev; simpl poll.
    + destruct (studio_quit f 1 b q lg) as [lg1 ->]. rewrite bind_Ok.
      destruct (IH false lg1) as [lg2 ->]. exists lg2. simpl. by rewrite andb_false_r.
    + simpl. apply IH.
Qed.

(** The controller is the first listener: it polls, and the broadcast goes
    on with the other two. *)
Lemma studio_update_step f b q lg batch :
  Post (S (S f)) 0 UpdateEvent (studio b (batch :: q) lg) =
  let* w1 := poll (Post (S f) 1) batch
               (studio b q ((lg ++ [Broadcast 0 UpdateEvent]) ++
                            [Notified 0 0 UpdateEvent])) in
  for_keys (deliver (Post (S f) 1) 0 UpdateEvent) 2 1 3 w1.
Proof. destruct b; reflexivity. Qed.

Lemma studio_update f b q lg batch :
  ∃ lg', Post (S (S f)) 0 UpdateEvent (studio b (batch :: q) lg) =
         Ok (studio (b && noquit batch) q lg').
Proof.
  rewrite studio_update_step.
  destruct (studio_poll f b q
              ((lg ++ [Broadcast 0 UpdateEvent]) ++ [Notified 0 0 UpdateEvent]) batch)
    as [lg1 ->].
  rewrite bind_Ok. eexists. destruct (b && noquit batch); vm_compute; reflexivity.
Qed.

Lemma studio_body f b q lg batch :
  ∃ lg', Run_body (S (S f)) (studio b (batch :: q) lg) =
         Ok (studio (b && noquit batch) q lg').
Proof.
  unfold Run_body.
  destruct (studio_update f b q lg batch) as [lg1 ->]. rewrite bind_Ok.
  destruct (studio_other (S f) (b && noquit batch) q lg1 DrawEvent) as [lg2 ->];
    [by left|]. rewrite bind_Ok.
  change (clock_tick 30 (studio (b && noquit batch) q lg2))
    with (studio (b && noquit batch) q (lg2 ++ [Tick 30])).
  destruct (studio_other (S f) (b && noquit batch) q (lg2 ++ [Tick 30]) DrawEvent)
    as [lg3 ->]; [by left|]. rewrite bind_Ok.
  by exists (lg3 ++ [Tick 30]).
Qed.

Lemma studio_run f pre last rest lg :
  forallb noquit pre = true → noquit last = false →
  ∃ w' tr, Run (S (length pre)) (S (S f)) 1 (studio true (pre ++ last :: rest) lg) = Ok w' ∧
           log w' = lg ++ tr ∧
           own tr = turns (S (length pre)) ++ [Broadcast 0 QuitCleanupEvent] ∧
           running 1 w' = Some false.
Proof.
  intros Hpre Hlast. revert lg Hpre. induction pre as [|p pre IH]; intros lg Hpre.
  - simpl length. rewrite Run_S.
    change (default false (running 1 (studio true ([] ++ last :: rest) lg))) with true.
    cbv iota. simpl app.
    destruct (studio_body f true rest lg last) as [lg1 H1]. rewrite H1, bind_Ok.
    rewrite Hlast in *. simpl andb in *.
    rewrite Run_stopped by done.
    destruct (studio_other (S f) false rest lg1 QuitCleanupEvent) as [lg2 H2];
      [by right|].
    rewrite H2. apply Run_body_own in H1 as (tr1 & E1 & O1).
    apply Post_own in H2 as (tr2 & E2 & O2).
    exists (studio false rest lg2), (tr1 ++ tr2). split; [done|].
    split; [|split; [|done]].
    + pose proof (ev_log _ _ _ E2) as L2. pose proof (ev_log _ _ _ E1) as L1.
      simpl in *. by rewrite L2, L1, app_assoc.
    + by rewrite own_app, O1, O2.
  - simpl in Hpre. apply andb_true_iff in Hpre as [Hp Hpre].
    simpl length. rewrite Run_S.
    change (default false (running 1 (studio true ((p :: pre) ++ last :: rest) lg)))
      with true.
    cbv iota. simpl app.
    destruct (studio_body f true (pre ++ last :: rest) lg p) as [lg1 H1].
    rewrite H1, bind_Ok. rewrite Hp in *. simpl andb in *.
    destruct (IH lg1 Hpre) as (w' & tr2 & H2 & L2 & O2 & R2).
    apply Run_body_own in H1 as (tr1 & E1 & O1).
    exists w', (tr1 ++ tr2). split; [done|]. split; [|split; [|done]].
    + pose proof (ev_log _ _ _ E1) as L1. simpl in L1.
      by rewrite L2, L1, app_assoc.
    + rewrite own_app, O1, O2. unfold turns.
      change (mjoin (replicate (S (S (length pre))) turn))
        with (turn ++ mjoin (replicate (S (length pre)) turn)).
      by rewrite app_assoc.
Qed.

(** When pygame reports the closing of the window for the first time in
    its poll number [length pre + 1], [main] returns: the loop has made
    exactly that many turns and has then broadcast the cleanup, and the
    flag of the tick controller is false. *)
Theorem main_returns (fuel : nat) (pre : list (list pygame_event))
    (last : list pygame_event) (rest : list (list pygame_event)) :
  forallb noquit pre = true → noquit last = false →
  ∃ w' tr, main (S (length pre)) (S (S fuel)) (pre ++ last :: rest) = Ok w' ∧
           log w' = [Repaint 2] ++ tr ∧
           own tr = turns (S (length pre)) ++ [Broadcast 0 QuitCleanupEvent] ∧
           running 1 w' = Some false.
Proof.
  intros Hpre Hlast.
  change (main (S (length pre)) (S (S fuel)) (pre ++ last :: rest))
    with (Run (S (length pre)) (S (S fuel)) 1 (snd (main_setup (pre ++ last :: rest)))).
  rewrite main_setup_studio. by apply studio_run.
Qed.

(** ** The trace of the program *)

Lemma studio_quit_exact f d b q lg :
  Post (S f) d QuitEvent (studio b q lg) =
  Ok (studio false q (lg ++ broadcast_trace d QuitEvent)).
Proof.
  transitivity (Ok (studio false q
    ((((lg ++ [Broadcast d QuitEvent]) ++ [Notified d 0 QuitEvent]) ++
      [Notified d 1 QuitEvent]) ++ [Notified d 2 QuitEvent]))).
  - destruct b; vm_compute; reflexivity.
  - unfold broadcast_trace. by rewrite <- !app_assoc.
Qed.

Lemma studio_draw_exact f b q lg :
  Post (S f) 0 DrawEvent (studio b q lg) = Ok (studio b q (lg ++ draw_trace)).
Proof.
  transitivity (Ok (studio b q
    (((((lg ++ [Broadcast 0 DrawEvent]) ++ [Notified 0 0 DrawEvent]) ++
       [Notified 0 1 DrawEvent]) ++ [Notified 0 2 DrawEvent]) ++ [Repaint 2]))).
  - destruct b; vm_compute; reflexivity.
  - unfold draw_trace, broadcast_trace. by rewrite <- !app_assoc.
Qed.

Lemma studio_cleanup_exact f b q lg :
  Post (S f) 0 QuitCleanupEvent (studio b q lg) = Ok (studio b q (lg ++ cleanup_trace)).
Proof.
  transitivity (Ok (studio b q
    (((((lg ++ [Broadcast 0 QuitCleanupEvent]) ++ [Notified 0 0 QuitCleanupEvent]) ++
       [Notified 0 1 QuitCleanupEvent]) ++ [Notified 0 2 QuitCleanupEvent]) ++
     [PygameQuit 2]))).
  - destruct b; vm_compute; reflexivity.
  - unfold cleanup_trace, broadcast_trace. by rewrite <- !app_assoc.
Qed.

Lemma studio_poll_exact f b q lg batch :
  poll (Post (S f) 1) batch (studio b q lg) =
  Ok (studio (b && noquit batch) q (lg ++ poll_trace batch)).
Proof.
  revert b lg. induction batch as [|ev rest IH]; intros b lg.
  - simpl. by rewrite andb_true_r, app_nil_r.
  - destruct ev; simpl poll.
    + rewrite studio_quit_exact, bind_Ok, IH. simpl.
      by rewrite andb_false_r, <- app_assoc.
    + simpl. apply IH.
Qed.

(** The broadcast of an update: the controller polls the next batch (none
    is left: the empty batch), then the other two listeners are notified. *)
Lemma studio_update_exact f b q lg :
  Post (S (S f)) 0 UpdateEvent (studio b q lg) =
  Ok (studio (b && noquit (hd [] q)) (tl q) (lg ++ update_trace (hd [] q))).
Proof.
  transitivity
    (let* w1 := poll (Post (S f) 1) (hd [] q)
                  (studio b (tl q) ((lg ++ [Broadcast 0 UpdateEvent]) ++
                                    [Notified 0 0 UpdateEvent])) in
     for_keys (deliver (Post (S f) 1) 0 UpdateEvent) 2 1 3 w1).
  { destruct b; reflexivity. }
  rewrite studio_poll_exact, bind_Ok.
  transitivity (Ok (studio (b && noquit (hd [] q)) (tl q)
    (((((lg ++ [Broadcast 0 UpdateEvent]) ++ [Notified 0 0 UpdateEvent]) ++
       poll_trace (hd [] q)) ++ [Notified 0 1 UpdateEvent]) ++
     [Notified 0 2 UpdateEvent]))).
  - destruct (b && noquit (hd [] q)); vm_compute; reflexivity.
  - unfold update_trace. by rewrite <- !app_assoc.
Qed.

Lemma studio_body_exact f b q lg :
  Run_body (S (S f)) (studio b q lg) =
  Ok (studio (b && noquit (hd [] q)) (tl q) (lg ++ turn_trace (hd [] q))).
Proof.
  unfold Run_body. rewrite studio_update_exact, bind_Ok, studio_draw_exact, bind_Ok.
  change (clock_tick 30 (studio ?b ?q ?l)) with (studio b q (l ++ [Tick 30])).
  rewrite studio_draw_exact, bind_Ok.
  change (clock_tick 30 (studio ?b ?q ?l)) with (studio b q (l ++ [Tick 30])).
  unfold turn_trace. by rewrite <- !app_assoc.
Qed.

Lemma studio_run_exact f pre last rest lg :
  forallb noquit pre = true → noquit last = false →
  Run (S (length pre)) (S (S f)) 1 (studio true (pre ++ last :: rest) lg) =
  Ok (studio false rest
        (lg ++ flat_map turn_trace (pre ++ [last]) ++ cleanup_trace)).
Proof.
  intros Hpre Hlast. revert lg Hpre. induction pre as [|p pre IH]; intros lg Hpre.
  - change ([] ++ last :: rest) with (last :: rest).
    change (flat_map turn_trace ([] ++ [last])) with (turn_trace last ++ []).
    simpl length. rewrite Run_S.
    change (default false (running 1 (studio true (last :: rest) lg))) with true.
    cbv iota. rewrite studio_body_exact, bind_Ok. simpl hd. simpl tl.
    rewrite Hlast. simpl andb. rewrite Run_stopped by done.
    rewrite studio_cleanup_exact. by rewrite app_nil_r, <- app_assoc.
  - simpl in Hpre. apply andb_true_iff in Hpre as [Hp Hpre].
    change ((p :: pre) ++ last :: rest) with (p :: (pre ++ last :: rest)).
    change (flat_map turn_trace ((p :: pre) ++ [last]))
      with (turn_trace p ++ flat_map turn_trace (pre ++ [last])).
    simpl length. rewrite Run_S.
    change (default false (running 1 (studio true (p :: (pre ++ last :: rest)) lg)))
      with true.
    cbv iota. rewrite studio_body_exact, bind_Ok. simpl hd. simpl tl.
    rewrite Hp. simpl andb. rewrite IH by done.
    by rewrite <- !app_assoc.
Qed.

Lemma main_is_Run iters fuel q :
  main iters fuel q = Run iters fuel 1 (studio true q [Repaint 2]).
Proof. by rewrite <- main_setup_studio. Qed.

(** X1.  When pygame reports the closing of the window for the first time
    in the batch [last], after the batches [pre], [main] returns.  The world
    it leaves holds the three listeners with the flag of the tick controller
    false; the input [rest] that follows [last] has never been polled; the
    trace is the construction of the view, then one turn for each of the
    batches [pre] and [last], then the cleanup, entry by entry. *)
Theorem main_trace_exact (fuel : nat) (pre : list (list pygame_event))
    (last : list pygame_event) (rest : list (list pygame_event)) :
  forallb noquit pre = true → noquit last = false →
  main (S (length pre)) (S (S fuel)) (pre ++ last :: rest) =
  Ok (studio false rest (main_trace (pre ++ [last]))).
Proof.
  intros Hpre Hlast. rewrite main_is_Run. unfold main_trace.
  by apply studio_run_exact.
Qed.

Lemma main_trace_exact_witness :
  main 2 2 ([[OtherInput 3]] ++ [OtherInput 5; QUIT; QUIT] :: [[QUIT]]) =
  Ok (studio false [[QUIT]] (main_trace ([[OtherInput 3]] ++ [[OtherInput 5; QUIT; QUIT]]))).
Proof.
  apply (main_trace_exact 0 [[OtherInput 3]] [OtherInput 5; QUIT; QUIT] [[QUIT]]);
    reflexivity.
Defined.

Lemma studio_run_forever f iters q lg :
  forallb noquit q = true → Run iters (S (S f)) 1 (studio true q lg) = OutOfFuel.
Proof.
  revert q lg. induction iters as [|n IH]; intros q lg Hq; [done|].
  rewrite Run_S. change (default false (running 1 (studio true q lg))) with true.
  cbv iota. rewrite studio_body_exact, bind_Ok.
  assert (Hhd : noquit (hd [] q) = true ∧ forallb noquit (tl q) = true).
  { destruct q as [|b q]; [done|]. simpl in *. by apply andb_true_iff. }
  destruct Hhd as [-> Htl]. by apply IH.
Qed.

(** X2.  While pygame never reports the closing of the window, [main] does
    not return: whatever the number of turns allowed, the loop is still
    running when they are used up.  Once the input is exhausted the polls
    find nothing and the loop keeps turning. *)
Theorem main_never_returns_without_QUIT (iters fuel : nat)
    (q : list (list pygame_event)) :
  forallb noquit q = true → main iters (S (S fuel)) q = OutOfFuel.
Proof. intros Hq. rewrite main_is_Run. by apply studio_run_forever. Qed.

Lemma main_never_returns_without_QUIT_witness :
  main 7 2 [[OtherInput 3]; []; [OtherInput 4; OtherInput 4]] = OutOfFuel.
Proof.
  apply (main_never_returns_without_QUIT 7 0 [[OtherInput 3]; []; [OtherInput 4; OtherInput 4]]).
  reflexivity.
Defined.

Lemma filter_silent_poll_trace x batch :
  silent x → filter (λ i, i = x) (poll_trace batch) = [].
Proof.
  intros Hx. induction batch as [|ev rest IH]; [done|].
  change (poll_trace (ev :: rest))
    with (match ev with
          | QUIT => broadcast_trace 1 QuitEvent
          | OtherInput _ => []
          end ++ poll_trace rest).
  rewrite filter_app, IH, app_nil_r.
  destruct ev; [|done]. by destruct x.
Qed.

Lemma repaints_turn batch :
  filter (λ i, i = Repaint 2) (turn_trace batch) = [Repaint 2; Repaint 2].
Proof.
  unfold turn_trace, update_trace. rewrite !filter_app.
  by rewrite filter_silent_poll_trace.
Qed.

Lemma quits_turn batch : filter (λ i, i = PygameQuit 2) (turn_trace batch) = [].
Proof.
  unfold turn_trace, update_trace. rewrite !filter_app.
  by rewrite filter_silent_poll_trace.
Qed.

Lemma repaints_turns batches :
  length (filter (λ i, i = Repaint 2) (flat_map turn_trace batches)) = 2 * length batches.
Proof.
  induction batches as [|b bs IH]; [done|].
  change (flat_map turn_trace (b :: bs)) with (turn_trace b ++ flat_map turn_trace bs).
  rewrite filter_app, length_app, repaints_turn, IH. simpl. lia.
Qed.

Lemma quits_turns batches :
  filter (λ i, i = PygameQuit 2) (flat_map turn_trace batches) = [].
Proof.
  induction batches as [|b bs IH]; [done|].
  change (flat_map turn_trace (b :: bs)) with (turn_trace b ++ flat_map turn_trace bs).
  by rewrite filter_app, quits_turn, IH.
Qed.

(** X3.  In the run of [main] that the closing of the window ends, the view
    repaints once when it is constructed and twice in every turn, and
    nowhere else; [pygame.quit()] is called once, and it is the last entry
    of the trace, so that the view never repaints after it. *)
Theorem main_view_effects (fuel : nat) (pre : list (list pygame_event))
    (last : list pygame_event) (rest : list (list pygame_event)) :
  forallb noquit pre = true → noquit last = false →
  ∃ w', main (S (length pre)) (S (S fuel)) (pre ++ last :: rest) = Ok w' ∧
        length (filter (λ i, i = Repaint 2) (log w')) = 1 + 2 * S (length pre) ∧
        length (filter (λ i, i = PygameQuit 2) (log w')) = 1 ∧
        list.last (log w') = Some (PygameQuit 2).
Proof.
  intros Hpre Hlast. eexists. split.
  { rewrite main_is_Run. by apply studio_run_exact. }
  change (log (studio false rest ?l)) with l. split; [|split].
  - rewrite !filter_app, !length_app, repaints_turns, length_app. simpl. lia.
  - by rewrite !filter_app, quits_turns.
  - unfold cleanup_trace. by rewrite !app_assoc, last_snoc.
Qed.

Lemma main_view_effects_witness :
  ∃ w', main 2 2 ([[OtherInput 3]] ++ [QUIT] :: []) = Ok w' ∧
        length (filter (λ i, i = Repaint 2) (log w')) = 1 + 2 * 2 ∧
        length (filter (λ i, i = PygameQuit 2) (log w')) = 1 ∧
        list.last (log w') = Some (PygameQuit 2).
Proof. apply (main_view_effects 0 [[OtherInput 3]] [QUIT] []); reflexivity. Defined.

(** ** The controller *)

Lemma bind_ext o k1 k2 : (∀ w, k1 w = k2 w) → bind o k1 = bind o k2.
Proof. intros H. destruct o; simpl; by rewrite ?H. Qed.

Lemma poll_post_quits post batch w :
  poll post batch w = post_quits (count_QUIT batch) post w.
Proof.
  revert w. induction batch as [|ev rest IH]; intros w; [done|].
  unfold count_QUIT. rewrite filter_cons. destruct ev.
  - rewrite decide_True by done. simpl. by apply bind_ext.
  - rewrite decide_False by done. simpl. apply IH.
Qed.

(** X4.  The controller reacts to an update only.  It then takes the next
    batch of input from pygame (the empty batch when none is left) and
    posts a [QuitEvent] for every [QUIT] of the batch, one call of [Post]
    after the other; input that is not [QUIT] is dropped without a trace,
    and when a call of [Post] raises the remaining ones are not made.  For
    every other event it returns the world it was given: pygame is not
    polled. *)
Theorem PygameController_posts_once_per_QUIT
    (post : Event → World → Outcome) (e : Event) (w : World) :
  PygameController_Notify post e w =
  if decide (e = UpdateEvent)
  then post_quits (count_QUIT (hd [] (pygame_queue w))) post
         (set_pygame_queue (tl (pygame_queue w)) w)
  else Ok w.
Proof.
  unfold PygameController_Notify. case_decide; [|done]. apply poll_post_quits.
Qed.

(** ** The order of the registry *)

Lemma keys_del_key l ls :
  omap id (del_key l ls) = filter (λ k, k ≠ l) (omap id ls).
Proof.
  assert (Hs : ∀ (k : nat) ks, omap id (Some k :: ks) = k :: omap id ks) by done.
  assert (Hn : ∀ ks : list (option nat), omap id (None :: ks) = omap id ks) by done.
  induction ls as [|s ls IH]; [done|].
  change (del_key l (s :: ls))
    with ((if decide (s = Some l) then None else s) :: del_key l ls).
  destruct s as [k|].
  - rewrite Hs, filter_cons. destruct (decide (k = l)) as [->|Hne].
    + rewrite decide_True by done. rewrite decide_False by (by intros H; apply H).
      by rewrite Hn.
    + rewrite decide_False by congruence. rewrite decide_True by done.
      by rewrite Hs, IH.
  - rewrite decide_False by done. by rewrite !Hn.
Qed.

Lemma filter_ne_absent (l : nat) (ks : list nat) : l ∉ ks → filter (λ k, k ≠ l) ks = ks.
Proof.
  induction ks as [|k ks IH]; [done|]. intros [Hne Hin]%not_elem_of_cons.
  rewrite filter_cons, decide_True by done. by rewrite IH.
Qed.

Lemma keys_UnregisterListener l w :
  is_Some (heap w !! l) →
  keys (UnregisterListener l w) = filter (λ k, k ≠ l) (keys w).
Proof.
  intros Hal. unfold UnregisterListener. case_decide as Hin.
  - apply keys_del_key.
  - rewrite filter_ne_absent; [done|]. intros Hk. apply Hin.
    apply elem_of_live_keys. split; [done|]. by apply elem_of_keys.
Qed.

(** X5.  The registry keeps the order of registration.  Unregistering a
    listener and registering it again puts it last, behind the listeners
    that were registered after it; the others keep their order.
    Registering a listener that was not registered and unregistering it
    gives the keys back as they were. *)
Theorem registry_keeps_order (l : nat) (w : World) :
  is_Some (heap w !! l) →
  keys (RegisterListener l (UnregisterListener l w)) =
    filter (λ k, k ≠ l) (keys w) ++ [l] ∧
  ((Some l ∉ listeners w) →
   keys (UnregisterListener l (RegisterListener l w)) = keys w).
Proof.
  intros Hal. split.
  - unfold RegisterListener. rewrite decide_False
      by (by apply UnregisterListener_unregistered).
    unfold keys at 1. simpl. rewrite omap_app. simpl.
    f_equal. by apply keys_UnregisterListener.
  - intros Hin. rewrite keys_UnregisterListener.
    + unfold RegisterListener. rewrite decide_False by done.
      unfold keys. simpl. rewrite omap_app, filter_app. simpl.
      rewrite filter_cons, decide_False by (by intros H; apply H).
      rewrite filter_nil, app_nil_r. apply filter_ne_absent.
      intros Hk. apply Hin. by apply elem_of_keys.
    + unfold RegisterListener. by case_decide.
Qed.

Lemma registry_keeps_order_witness :
  keys (RegisterListener 0 (UnregisterListener 0 (demo [[QUIT]]))) =
    filter (λ k, k ≠ 0) (keys (demo [[QUIT]])) ++ [0] ∧
  ((Some 0 ∉ listeners (demo [[QUIT]])) →
   keys (UnregisterListener 0 (RegisterListener 0 (demo [[QUIT]]))) =
     keys (demo [[QUIT]])).
Proof.
  apply (registry_keeps_order 0 (demo [[QUIT]])). vm_compute. by eexists.
Defined.

(** ** When the loop ends, and when it does not *)

Lemma Run_Ok_not_running iters fuel s w w' :
  Run iters fuel s w = Ok w' → running s w' ≠ Some true.
Proof.
  assert (Hend : ∀ w0, running s w0 ≠ Some true →
                       Post fuel 0 QuitCleanupEvent w0 = Ok w' → running s w' ≠ Some true).
  { intros w0 Hr H. destruct (Post_final fuel QuitCleanupEvent w0 w') as [tr E];
      [by rewrite H|].
    eapply not_running_stable; [apply E | done]. }
  revert w. induction iters as [|n IH]; intros w; simpl;
    destruct (running s w) as [[|]|] eqn:Hr; simpl; try done;
    try (apply Hend; by rewrite Hr).
  destruct (Run_body fuel w) as [w1| |]; simpl; [apply IH | done..].
Qed.

(** X6.  A run that began with the flag true and has returned has ended
    because a [QuitEvent] was delivered to the tick controller: the flag is
    false, and the trace of the run holds the call of the controller's
    [Notify] with a [QuitEvent].  Nothing else ends the loop, whatever the
    listeners do. *)
Theorem Run_returns_only_after_Quit (iters fuel s : nat) (w w' : World)
    (tr : list LogItem) :
  running s w = Some true → Run iters fuel s w = Ok w' → log w' = log w ++ tr →
  running s w' = Some false ∧ ∃ d, Notified d s QuitEvent ∈ tr.
Proof.
  intros Hr H Hl. destruct (Run_final iters fuel s w w') as [tr' E]; [by rewrite H|].
  rewrite (trace_unique _ _ _ _ (ev_log _ _ _ E) Hl).
  assert (Hf : running s w' = Some false).
  { eapply running_false_of; [apply E | by eexists | by eapply Run_Ok_not_running]. }
  split; [done|]. by apply (ev_flag _ _ _ E).
Qed.

Lemma Run_returns_only_after_Quit_witness :
  ∃ w' tr, Run 5 2 1 (demo five_turns) = Ok w' ∧ log w' = log (demo five_turns) ++ tr ∧
           running 1 w' = Some false ∧ ∃ d, Notified d 1 QuitEvent ∈ tr.
Proof.
  assert (H : ∃ w', Run 5 2 1 (demo five_turns) = Ok w').
  { eexists. vm_compute. reflexivity. }
  destruct H as [w' H].
  destruct (Run_final 5 2 1 (demo five_turns) w') as [tr E]; [by rewrite H|].
  exists w', tr. split; [done|]. split; [apply E|].
  apply (Run_returns_only_after_Quit 5 2 1 (demo five_turns) w' tr eq_refl H (ev_log _ _ _ E)).
Defined.

(** X7.  The loop cannot be started again.  When [Run] has returned, a
    second call of [Run] makes no turn: it is the broadcast of
    [QuitCleanupEvent] and nothing more, so the cleanup is broadcast a
    second time. *)
Theorem Run_again_only_cleans_up (iters iters' fuel fuel' s : nat) (w w' : World) :
  Run iters fuel s w = Ok w' →
  Run iters' fuel' s w' = Post fuel' 0 QuitCleanupEvent w'.
Proof. intros H. apply Run_stopped. by eapply Run_Ok_not_running. Qed.

Lemma Run_again_only_cleans_up_witness :
  ∃ w', Run 1 2 1 (demo [[QUIT]]) = Ok w' ∧
        Run 9 2 1 w' = Post 2 0 QuitCleanupEvent w'.
Proof.
  assert (H : ∃ w', Run 1 2 1 (demo [[QUIT]]) = Ok w').
  { eexists. vm_compute. reflexivity. }
  destruct H as [w' H]. exists w'. split; [done|].
  apply (Run_again_only_cleans_up 1 9 2 2 1 (demo [[QUIT]]) w' H).
Defined.

(** X8.  Among tame listeners the broadcast of a [QuitEvent] returns with
    one unit of fuel, for no handler posts while it handles a [QuitEvent].
    It has called [Notify] once on every listener that is registered and
    alive, in the order of the registry.  It has stopped every tick
    controller that is registered, and it has left the flag of every tick
    controller that is not registered as it was. *)
Theorem Post_Quit_stops_the_registered (fuel d : nat) (w : World) :
  tame w →
  ∃ w' tr, Post (S fuel) d QuitEvent w = Ok w' ∧
           log w' = log w ++ Broadcast d QuitEvent :: tr ∧
           direct d tr = (λ l, (l, QuitEvent)) <$> live_keys w ∧
           (∀ s b, Some s ∈ listeners w → running s w = Some b →
                   running s w' = Some false) ∧
           (∀ s b, (Some s ∉ listeners w) → running s w = Some b →
                   running s w' = Some b).
Proof.
  intros Ht. destruct (Post_tame_quit fuel d w Ht) as (w' & tr & H & B).
  pose proof (bo_evolves _ _ _ _ _ B) as E.
  exists w', tr. split; [done|]. split; [apply E|]. split; [apply B|]. split.
  - intros s b Hs Hb. eapply running_false_of; [apply E | by eexists |].
    apply (bo_quit _ _ _ _ _ B eq_refl). by rewrite (bo_listeners _ _ _ _ _ B).
  - intros s b Hs Hb. destruct b; [|by apply (heap_le_running _ _ _ (ev_heap _ _ _ E))].
    destruct (heap_le_running_some _ _ _ _ (ev_heap _ _ _ E) Hb) as [[|] Hb']; [done|].
    destruct (ev_flag _ _ _ E s Hb Hb') as [d' [[=]|Hin]%elem_of_cons].
    by apply (bo_registered _ _ _ _ _ B) in Hin.
Qed.

Lemma Post_Quit_stops_the_registered_witness :
  ∃ w' tr, Post 1 0 QuitEvent (demo [[QUIT]]) = Ok w' ∧
           log w' = log (demo [[QUIT]]) ++ Broadcast 0 QuitEvent :: tr ∧
           direct 0 tr = (λ l, (l, QuitEvent)) <$> live_keys (demo [[QUIT]]) ∧
           (∀ s b, Some s ∈ listeners (demo [[QUIT]]) → running s (demo [[QUIT]]) = Some b →
                   running s w' = Some false) ∧
           (∀ s b, (Some s ∉ listeners (demo [[QUIT]])) →
                   running s (demo [[QUIT]]) = Some b → running s w' = Some b).
Proof. apply (Post_Quit_stops_the_registered 0 0 (demo [[QUIT]])), demo_tame. Defined.

Lemma Post_tame_unregistered fuel d e s w :
  tame w → (Some s ∉ listeners w) → running s w = Some true →
  ∃ w', Post (S (S fuel)) d e w = Ok w' ∧ tame w' ∧
        listeners w' = listeners w ∧ running s w' = Some true.
Proof.
  intros Ht Hs Hr. destruct (Post_tame fuel d e w Ht) as (w' & tr & H & B).
  pose proof (bo_evolves _ _ _ _ _ B) as E.
  exists w'. split; [done|]. split; [by eapply broadcast_ok_tame|].
  split; [apply B|].
  destruct (heap_le_running_some _ _ _ _ (ev_heap _ _ _ E) Hr) as [[|] Hb']; [done|].
  destruct (ev_flag _ _ _ E s Hr Hb') as [d' [[=]|Hin]%elem_of_cons].
  by apply (bo_registered _ _ _ _ _ B) in Hin.
Qed.

Lemma tame_clock_tick fps w : tame w → tame (clock_tick fps w).
Proof. apply tame_stable; [done | apply heap_le_refl]. Qed.

(** X9.  A tick controller that is not registered cannot be stopped.  Among
    tame listeners, when the flag is true and the controller is not in the
    registry, [Run] does not return: whatever the number of turns allowed,
    the loop is still running when they are used up.  (A listener can bring
    this about by unregistering the controller.) *)
Theorem Run_unregistered_never_returns (iters fuel s : nat) (w : World) :
  tame w → (Some s ∉ listeners w) → running s w = Some true →
  Run iters (S (S fuel)) s w = OutOfFuel.
Proof.
  revert w. induction iters as [|n IH]; intros w Ht Hs Hr.
  - simpl. by rewrite Hr.
  - rewrite Run_S, Hr. simpl. unfold Run_body.
    destruct (Post_tame_unregistered fuel 0 UpdateEvent s w Ht Hs Hr)
      as (w1 & -> & Ht1 & L1 & R1). rewrite bind_Ok.
    destruct (Post_tame_unregistered fuel 0 DrawEvent s w1 Ht1) as (w2 & -> & Ht2 & L2 & R2);
      [by rewrite L1 | done |]. rewrite bind_Ok.
    destruct (Post_tame_unregistered fuel 0 DrawEvent s (clock_tick 30 w2))
      as (w3 & -> & Ht3 & L3 & R3);
      [by apply tame_clock_tick | simpl; by rewrite L2, L1 | done |].
    rewrite !bind_Ok. apply IH.
    + by apply tame_clock_tick.
    + simpl. rewrite L3. simpl. by rewrite L2, L1.
    + done.
Qed.

Lemma Run_unregistered_never_returns_witness :
  Run 6 2 1 (UnregisterListener 1 (demo [[QUIT]; [QUIT]])) = OutOfFuel.
Proof.
  apply (Run_unregistered_never_returns 6 0 1 (UnregisterListener 1 (demo [[QUIT]; [QUIT]]))).
  - intros l c Hin Hl.
    change (listeners (UnregisterListener 1 (demo [[QUIT]; [QUIT]])))
      with [Some 0; None; Some 2; Some 3] in *.
    repeat (apply elem_of_cons in Hin as [[= ->]|Hin]);
      try (by apply elem_of_nil in Hin);
      vm_compute in Hl; injection Hl as <-; try exact I.
    intros n e c Hc. by apply elem_of_nil in Hc.
  - change (listeners (UnregisterListener 1 (demo [[QUIT]; [QUIT]])))
      with [Some 0; None; Some 2; Some 3].
    by apply (bool_decide_unpack _).
  - reflexivity.
Defined.

(** ** When a listener raises *)

Lemma Post_final_own fuel e w w' :
  final (Post fuel 0 e w) = Some w' → ∃ tr, evolves tr w w' ∧ own tr = [Broadcast 0 e].
Proof.
  intros (tr & E & F)%Post_evolves.
  exists (Broadcast 0 e :: tr). split; [done|]. by apply own_broadcast.
Qed.

Lemma Run_body_Exn fuel w x w' :
  Run_body fuel w = Exn x w' → ∃ tr, evolves tr w w' ∧ own tr ∈ cut_turns.
Proof.
  unfold Run_body. intros H.
  destruct (Post fuel 0 UpdateEvent w) as [w1|x1 w1|] eqn:H1; [| |done].
  2: { simpl in H. injection H as <- <-.
       destruct (Post_final_own fuel UpdateEvent w w1) as (tr1 & E1 & O1); [by rewrite H1|].
       exists tr1. split; [done|]. rewrite O1. by apply (bool_decide_unpack _). }
  destruct (Post_final_own fuel UpdateEvent w w1) as (tr1 & E1 & O1); [by rewrite H1|].
  rewrite bind_Ok in H.
  destruct (Post fuel 0 DrawEvent w1) as [w2|x2 w2|] eqn:H2; [| |done].
  2: { simpl in H. injection H as <- <-.
       destruct (Post_final_own fuel DrawEvent w1 w2) as (tr2 & E2 & O2); [by rewrite H2|].
       exists (tr1 ++ tr2). split; [by eapply evolves_trans|].
       rewrite own_app, O1, O2. by apply (bool_decide_unpack _). }
  destruct (Post_final_own fuel DrawEvent w1 w2) as (tr2 & E2 & O2); [by rewrite H2|].
  rewrite bind_Ok in H.
  destruct (Post fuel 0 DrawEvent (clock_tick 30 w2)) as [w3|x3 w3|] eqn:H3; [done| |done].
  simpl in H. injection H as <- <-.
  destruct (Post_final_own fuel DrawEvent (clock_tick 30 w2) w3) as (tr3 & E3 & O3);
    [by rewrite H3|].
  exists (((tr1 ++ tr2) ++ [Tick 30]) ++ tr3). split.
  - exact (evolves_trans _ _ _ _ _
             (evolves_trans _ _ _ _ _ (evolves_trans _ _ _ _ _ E1 E2)
                (evolves_tick 30 w2)) E3).
  - rewrite !own_app, O1, O2, O3. by apply (bool_decide_unpack _).
Qed.

Lemma Run_Exn iters fuel s w x w' :
  Run iters fuel s w = Exn x w' →
  ∃ tr n p, evolves tr w w' ∧ own tr = turns n ++ p ∧
            (p ∈ cut_turns ∨ p = [Broadcast 0 QuitCleanupEvent]).
Proof.
  assert (Hend : ∀ w0, Post fuel 0 QuitCleanupEvent w0 = Exn x w' →
    ∃ tr n p, evolves tr w0 w' ∧ own tr = turns n ++ p ∧
              (p ∈ cut_turns ∨ p = [Broadcast 0 QuitCleanupEvent])).
  { intros w0 H.
    destruct (Post_final_own fuel QuitCleanupEvent w0 w') as (tr & E & O); [by rewrite H|].
    exists tr, 0, [Broadcast 0 QuitCleanupEvent]. split; [done|]. split; [done|]. by right. }
  revert w. induction iters as [|k IH]; intros w; simpl;
    destruct (default false (running s w)); try done; try apply Hend.
  intros H. destruct (Run_body fuel w) as [w1|x1 w1|] eqn:H1; [| |done].
  - rewrite bind_Ok in H. apply Run_body_own in H1 as (tr1 & E1 & O1).
    destruct (IH _ H) as (tr2 & n & p & E2 & O2 & Hp).
    exists (tr1 ++ tr2), (S n), p. split; [by eapply evolves_trans|]. split; [|done].
    rewrite own_app, O1, O2. unfold turns.
    change (mjoin (replicate (S n) turn)) with (turn ++ mjoin (replicate n turn)).
    by rewrite app_assoc.
  - simpl in H. injection H as <- <-. apply Run_body_Exn in H1 as (tr1 & E1 & O1).
    exists tr1, 0, (own tr1). split; [done|]. split; [done|]. by left.
Qed.

(** X10.  Nothing in the loop catches an exception.  When a run ends with
    an exception, what the loop itself did is a number of whole turns
    followed by what it had done of the next turn when one of its
    broadcasts raised, and then the loop has broadcast no cleanup; or it is
    whole turns followed by the broadcast of the cleanup, which raised. *)
Theorem Run_exception_skips_cleanup (iters fuel s : nat) (x : Exception)
    (w w' : World) (tr : list LogItem) :
  Run iters fuel s w = Exn x w' → log w' = log w ++ tr →
  ∃ n p, own tr = turns n ++ p ∧
         ((p ∈ cut_turns ∧ Broadcast 0 QuitCleanupEvent ∉ tr) ∨
          p = [Broadcast 0 QuitCleanupEvent]).
Proof.
  intros H Hl. destruct (Run_Exn _ _ _ _ _ _ H) as (tr' & n & p & E & O & Hp).
  pose proof (trace_unique _ _ _ _ (ev_log _ _ _ E) Hl) as Heq. subst tr.
  exists n, p. split; [done|]. destruct Hp as [Hp|Hp]; [left|by right].
  split; [done|]. intros Hin.
  assert (Hown : Broadcast 0 QuitCleanupEvent ∈ own tr').
  { unfold own. apply list_elem_of_filter. split; [exact I | done]. }
  rewrite O in Hown. apply elem_of_app in Hown as [Hown|Hown].
  - by apply (filter_nil_not_elem_of _ _ _ (no_cleanup_in_turns n) eq_refl) in Hown.
  - unfold cut_turns in Hp.
    repeat (apply elem_of_cons in Hp as [->|Hp]);
      try (by apply elem_of_nil in Hp);
      repeat (apply elem_of_cons in Hown as [[=]|Hown]); by apply elem_of_nil in Hown.
Qed.

Lemma Run_exception_skips_cleanup_witness :
  ∃ w' tr, Run 3 2 1 (guest grumpy [[]; [QUIT]]) = Exn Raised w' ∧
           log w' = log (guest grumpy [[]; [QUIT]]) ++ tr ∧
  ∃ n p, own tr = turns n ++ p ∧
         ((p ∈ cut_turns ∧ Broadcast 0 QuitCleanupEvent ∉ tr) ∨
          p = [Broadcast 0 QuitCleanupEvent]).
Proof.
  assert (H : ∃ w', Run 3 2 1 (guest grumpy [[]; [QUIT]]) = Exn Raised w').
  { eexists. vm_compute. reflexivity. }
  destruct H as [w' H].
  destruct (Run_final 3 2 1 (guest grumpy [[]; [QUIT]]) w') as [tr E]; [by rewrite H|].
  exists w', tr. split; [done|]. split; [apply E|].
  apply (Run_exception_skips_cleanup 3 2 1 Raised (guest grumpy [[]; [QUIT]]) w' tr H
           (ev_log _ _ _ E)).
Defined.

(** ** Invariants of the world *)

Section Invariant.
Context (Inv : World → Prop).
Hypothesis Inv_log : ∀ i w, Inv w → Inv (add_log i w).
Hypothesis Inv_poll : ∀ w, Inv w → Inv (set_pygame_queue (tl (pygame_queue w)) w).
Hypothesis Inv_obj : ∀ l o w, Inv w → Inv (set_obj l o w).
Hypothesis Inv_register : ∀ l w, Inv w → Inv (RegisterListener l w).
Hypothesis Inv_unregister : ∀ l w, Inv w → Inv (UnregisterListener l w).

Lemma poll_keeps post batch w w' :
  (∀ e w w', Inv w → final (post e w) = Some w' → Inv w') →
  Inv w → final (poll post batch w) = Some w' → Inv w'.
Proof.
  intros Hpost. revert w. induction batch as [|ev rest IH]; intros w Hw; simpl.
  - by intros [= <-].
  - intros [(w1 & H1 & H2)|(x & H1)]%final_bind.
    + apply (IH w1); [|done]. destruct ev.
      * apply (Hpost QuitEvent w); [done | by rewrite H1].
      * by injection H1 as <-.
    + destruct ev; [|done]. apply (Hpost QuitEvent w); [done | by rewrite H1].
Qed.

Lemma exec_keeps post c w w' :
  (∀ e w w', Inv w → final (post e w) = Some w' → Inv w') →
  Inv w → final (exec post c w) = Some w' → Inv w'.
Proof using Inv_register Inv_unregister.
  intros Hpost Hw. destruct c as [l|l|e|]; simpl.
  - intros [= <-]. by apply Inv_register.
  - intros [= <-]. by apply Inv_unregister.
  - by apply Hpost.
  - by intros [= <-].
Qed.

Lemma run_script_keeps post cs w w' :
  (∀ e w w', Inv w → final (post e w) = Some w' → Inv w') →
  Inv w → final (run_script post cs w) = Some w' → Inv w'.
Proof using Inv_register Inv_unregister.
  intros Hpost. revert w. induction cs as [|c cs IH]; intros w Hw; simpl.
  - by intros [= <-].
  - intros [(w1 & H1 & H2)|(x & H1)]%final_bind.
    + apply (IH w1); [|done]. apply (exec_keeps post c w); [done..|by rewrite H1].
    + apply (exec_keeps post c w); [done..|by rewrite H1].
Qed.

Lemma deliver_keeps post d e l w w' :
  (∀ e w w', Inv w → final (post e w) = Some w' → Inv w') →
  Inv w → final (deliver post d e l w) = Some w' → Inv w'.
Proof using Inv_log Inv_poll Inv_obj Inv_register Inv_unregister.
  intros Hpost Hw. unfold deliver, Notify.
  pose proof (Inv_log (Notified d l e) w Hw) as Hw0.
  destruct (obj <$> heap (add_log (Notified d l e) w) !! l) as [[| |b|k script]|].
  - unfold PygameView_Notify, drawBackground. simpl. intros [= <-].
    repeat case_decide; repeat apply Inv_log; done.
  - unfold PygameController_Notify. case_decide; [|by intros [= <-]].
    apply (poll_keeps post); [done|]. by apply Inv_poll.
  - unfold TickController_Notify. case_decide; intros [= <-]; [|done].
    by apply Inv_obj.
  - apply (run_script_keeps post); [done|]. by apply Inv_obj.
  - by intros [= <-].
Qed.

Lemma for_keys_keeps body len pos used w w' :
  (∀ l w w', Inv w → final (body l w) = Some w' → Inv w') →
  Inv w → final (for_keys body len pos used w) = Some w' → Inv w'.
Proof.
  intros Hbody. revert pos w. induction len as [|len IH]; intros pos w Hw; simpl.
  - case_decide; [|by intros [= <-]].
    destruct (next_entry pos (listeners w)) as [[i l]|]; by intros [= <-].
  - case_decide; [|by intros [= <-]].
    destruct (next_entry pos (listeners w)) as [[i l]|]; [|by intros [= <-]].
    destruct (alive l w); [|by apply IH].
    intros [(w1 & H1 & H2)|(x & H1)]%final_bind.
    + apply (IH (S i) w1); [|done]. apply (Hbody l w); [done | by rewrite H1].
    + apply (Hbody l w); [done | by rewrite H1].
Qed.

Lemma Post_keeps fuel d e w w' :
  Inv w → final (Post fuel d e w) = Some w' → Inv w'.
Proof using Inv_log Inv_poll Inv_obj Inv_register Inv_unregister.
  revert d e w w'. induction fuel as [|fuel IH]; intros d e w w' Hw; [done|].
  rewrite Post_S. apply for_keys_keeps; [|by apply Inv_log].
  intros l w1 w1' Hw1. apply deliver_keeps; [|done].
  intros e1 w2 w2'. apply IH.
Qed.

Lemma Run_body_keeps fuel w w' :
  Inv w → final (Run_body fuel w) = Some w' → Inv w'.
Proof using Inv_log Inv_poll Inv_obj Inv_register Inv_unregister.
  intros Hw. unfold Run_body.
  intros [(w1 & H1 & H)|(x & H1)]%final_bind;
    [|apply (Post_keeps fuel 0 UpdateEvent w); [done | by rewrite H1]].
  assert (Hw1 : Inv w1) by (apply (Post_keeps fuel 0 UpdateEvent w); [done | by rewrite H1]).
  apply final_bind in H as [(w2 & H2 & H)|(x & H2)];
    [|apply (Post_keeps fuel 0 DrawEvent w1); [done | by rewrite H2]].
  assert (Hw2 : Inv w2) by (apply (Post_keeps fuel 0 DrawEvent w1); [done | by rewrite H2]).
  apply final_bind in H as [(w3 & H3 & H)|(x & H3)].
  - injection H as <-. apply Inv_log.
    apply (Post_keeps fuel 0 DrawEvent (clock_tick 30 w2)); [by apply Inv_log | by rewrite H3].
  - apply (Post_keeps fuel 0 DrawEvent (clock_tick 30 w2)); [by apply Inv_log | by rewrite H3].
Qed.

Lemma Run_keeps iters fuel s w w' :
  Inv w → final (Run iters fuel s w) = Some w' → Inv w'.
Proof using Inv_log Inv_poll Inv_obj Inv_register Inv_unregister.
  revert w. induction iters as [|n IH]; intros w Hw; simpl;
    destruct (default false (running s w)); try done; try (by apply Post_keeps).
  intros [(w1 & H1 & H)|(x & H1)]%final_bind.
  - apply (IH w1); [|done]. apply (Run_body_keeps fuel w); [done | by rewrite H1].
  - apply (Run_body_keeps fuel w); [done | by rewrite H1].
Qed.
End Invariant.

Lemma wf_UnregisterListener l w : wf w → wf (UnregisterListener l w).
Proof.
  unfold wf, UnregisterListener. case_decide; [|done]. intros Hnd.
  unfold keys. simpl. rewrite keys_del_key. by apply NoDup_filter.
Qed.

Lemma wf_decref l w : wf w → wf (decref l w).
Proof.
  unfold wf, decref. destruct (heap w !! l); [|done]. case_decide; [|done].
  intros Hnd. unfold keys. simpl. rewrite keys_del_key. by apply NoDup_filter.
Qed.

(** X12.  The registry never holds a listener twice.  It is so when the
    event manager has been constructed, and registering, unregistering,
    constructing a listener, the reclamation of an object, a broadcast and
    a run keep it so, however the broadcast or the run ends and whatever the
    listeners do. *)
Theorem registry_holds_a_listener_once (iters fuel d s l : nat) (e : Event)
    (q : list (list pygame_event)) (w : World) :
  wf w →
  wf (boot q) ∧
  wf (RegisterListener l w) ∧ wf (UnregisterListener l w) ∧ wf (decref l w) ∧
  wf (snd (PygameController_init w)) ∧ wf (snd (TickController_init w)) ∧
  wf (snd (PygameView_init w)) ∧
  (∀ w', final (Post fuel d e w) = Some w' → wf w') ∧
  (∀ w', final (Run iters fuel s w) = Some w' → wf w').
Proof.
  intros Hwf.
  assert (Hinit : ∀ o, wf (RegisterListener (next_id w) (snd (alloc o w)))).
  { intros o. by apply wf_RegisterListener. }
  split; [apply NoDup_nil_2|]. split; [by apply wf_RegisterListener|].
  split; [by apply wf_UnregisterListener|]. split; [by apply wf_decref|].
  split; [apply Hinit|]. split; [apply Hinit|]. split; [apply (Hinit PygameView)|].
  split.
  - intros w'. apply (Post_keeps wf); try done.
    + intros l0 w0. apply wf_RegisterListener.
    + intros l0 w0. apply wf_UnregisterListener.
  - intros w'. apply (Run_keeps wf); try done.
    + intros l0 w0. apply wf_RegisterListener.
    + intros l0 w0. apply wf_UnregisterListener.
Qed.

Lemma registry_holds_a_listener_once_witness :
  wf (boot []) ∧
  wf (RegisterListener 2 (crowd swapper)) ∧ wf (UnregisterListener 2 (crowd swapper)) ∧
  wf (decref 2 (crowd swapper)) ∧
  wf (snd (PygameController_init (crowd swapper))) ∧
  wf (snd (TickController_init (crowd swapper))) ∧
  wf (snd (PygameView_init (crowd swapper))) ∧
  (∀ w', final (Post 2 0 DrawEvent (crowd swapper)) = Some w' → wf w') ∧
  (∀ w', final (Run 3 2 1 (crowd swapper)) = Some w' → wf w').
Proof.
  apply (registry_holds_a_listener_once 3 2 0 1 2 DrawEvent [] (crowd swapper)).
  by apply (bool_decide_unpack _).
Defined.

Lemma tl_drop {A} k (l : list A) : tl (drop k l) = drop (S k) l.
Proof.
  revert l. induction k as [|k IH]; intros [|a l]; simpl; done.
Qed.

(** X13.  The input of pygame is consumed from the front and in order: what
    is left of it after a broadcast or a run, however they end and
    whatever the listeners do, is what was there before without some
    number of its first batches.  No batch is read twice, skipped over or
    put back. *)
Theorem input_is_consumed_in_order (iters fuel d s : nat) (e : Event) (w : World) :
  (∀ w', final (Post fuel d e w) = Some w' →
         ∃ k, pygame_queue w' = drop k (pygame_queue w)) ∧
  (∀ w', final (Run iters fuel s w) = Some w' →
         ∃ k, pygame_queue w' = drop k (pygame_queue w)).
Proof.
  assert (H0 : ∃ k, pygame_queue w = drop k (pygame_queue w)) by (by exists 0).
  assert (Hpoll : ∀ w0, (∃ k, pygame_queue w0 = drop k (pygame_queue w)) →
            ∃ k, pygame_queue (set_pygame_queue (tl (pygame_queue w0)) w0) =
                 drop k (pygame_queue w)).
  { intros w0 [k Hk]. exists (S k). simpl. by rewrite Hk, tl_drop. }
  split; intros w'.
  - by apply (Post_keeps (λ w0, ∃ k, pygame_queue w0 = drop k (pygame_queue w)));
      try done; intros ? ? ?; unfold RegisterListener, UnregisterListener;
      case_decide.
  - by apply (Run_keeps (λ w0, ∃ k, pygame_queue w0 = drop k (pygame_queue w)));
      try done; intros ? ? ?; unfold RegisterListener, UnregisterListener;
      case_decide.
Qed.
